(** * The fiber scheduler of helio: [util/fibers/detail/scheduler.cc]

    A shallow embedding of the single-threaded fiber scheduler
    ([Scheduler], [FiberInterface], [DispatcherImpl]) and the properties
    of its scheduling and lifecycle operations.

    Fiber objects and scheduler objects live in a store addressed by
    pointers (natural numbers); a pointer that is not in the store is
    dangling (or null) and dereferencing it is undefined behaviour.  Every
    operation is a computation in a state-and-error monad over the store and
    the thread-local [FiberInitializer].  A context switch is modelled at the
    level of the continuation primitive: the thread executes on exactly one
    stack ([running]), and a populated [fiber_context] names the stack whose
    suspended execution it resumes. *)

From Stdlib Require Import ZArith Lia.
From Stdlib.Strings Require Import Byte.
From stdpp Require Import base option list gmap sorting.

(** ** Data model *)

(** [FiberInterface::Type]. *)
Inductive Type_ : Set := MAIN | DISPATCH | WORKER.

#[global] Instance Type__eq_dec : EqDecision Type_.
Proof. solve_decision. Defined.

(** A populated [boost::context::fiber_context]: a suspended execution on
    the stack of fiber [stack].  The empty (moved-from) context is [None]
    of [option fiber_context]. *)
Inductive fiber_context : Set := Ctx (stack : nat).

#[global] Instance fiber_context_eq_dec : EqDecision fiber_context.
Proof. solve_decision. Defined.

#[global] Instance byte_eq_dec : EqDecision byte := Byte.byte_eq_dec.

(** The members of [FiberInterface] used by scheduler.cc.  [is_terminating_]
    is the member added by the subclass [DispatcherImpl]; [terminated] is
    [flags.terminated].  The intrusive hooks [list_hook] and [sleep_hook]
    are not stored: a hook is linked exactly while the object is in a
    container using it (see [list_hook_is_linked]). *)
Record FiberInterface : Type := mkFiberInterface {
  entry_ : option fiber_context;
  type_ : Type_;
  use_count_ : Z;
  terminated : bool;
  scheduler_ : option nat;
  tp_ : Z;
  wait_queue_ : list nat;
  name_ : list byte;
  is_terminating_ : bool
}.

Record Scheduler : Type := mkScheduler {
  main_cntx_ : nat;
  dispatch_cntx_ : option nat;
  ready_queue_ : list nat;
  terminate_queue_ : list nat;
  sleep_queue_ : list nat;
  num_worker_fibers_ : Z;
  shutdown_ : bool
}.

(** The store and the thread-local [FiberInitializer] ([active], [sched]).
    [running] is the stack the thread is executing on: the state of the
    continuation primitive itself, which the code never reads. *)
Record World : Type := mkWorld {
  fibers : gmap nat FiberInterface;
  scheds : gmap nat Scheduler;
  active : nat;
  sched : nat;
  running : nat
}.

(** Field updates. *)
Definition set_entry_ (v : option fiber_context) (x : FiberInterface) :=
  mkFiberInterface v (type_ x) (use_count_ x) (terminated x) (scheduler_ x)
    (tp_ x) (wait_queue_ x) (name_ x) (is_terminating_ x).
Definition set_use_count_ (v : Z) (x : FiberInterface) :=
  mkFiberInterface (entry_ x) (type_ x) v (terminated x) (scheduler_ x)
    (tp_ x) (wait_queue_ x) (name_ x) (is_terminating_ x).
Definition set_terminated (v : bool) (x : FiberInterface) :=
  mkFiberInterface (entry_ x) (type_ x) (use_count_ x) v (scheduler_ x)
    (tp_ x) (wait_queue_ x) (name_ x) (is_terminating_ x).
Definition set_scheduler_ (v : option nat) (x : FiberInterface) :=
  mkFiberInterface (entry_ x) (type_ x) (use_count_ x) (terminated x) v
    (tp_ x) (wait_queue_ x) (name_ x) (is_terminating_ x).
Definition set_tp_ (v : Z) (x : FiberInterface) :=
  mkFiberInterface (entry_ x) (type_ x) (use_count_ x) (terminated x)
    (scheduler_ x) v (wait_queue_ x) (name_ x) (is_terminating_ x).
Definition set_wait_queue_ (v : list nat) (x : FiberInterface) :=
  mkFiberInterface (entry_ x) (type_ x) (use_count_ x) (terminated x)
    (scheduler_ x) (tp_ x) v (name_ x) (is_terminating_ x).
Definition set_is_terminating_ (v : bool) (x : FiberInterface) :=
  mkFiberInterface (entry_ x) (type_ x) (use_count_ x) (terminated x)
    (scheduler_ x) (tp_ x) (wait_queue_ x) (name_ x) v.

Definition set_ready_queue_ (v : list nat) (s : Scheduler) :=
  mkScheduler (main_cntx_ s) (dispatch_cntx_ s) v (terminate_queue_ s)
    (sleep_queue_ s) (num_worker_fibers_ s) (shutdown_ s).
Definition set_terminate_queue_ (v : list nat) (s : Scheduler) :=
  mkScheduler (main_cntx_ s) (dispatch_cntx_ s) (ready_queue_ s) v
    (sleep_queue_ s) (num_worker_fibers_ s) (shutdown_ s).
Definition set_sleep_queue_ (v : list nat) (s : Scheduler) :=
  mkScheduler (main_cntx_ s) (dispatch_cntx_ s) (ready_queue_ s)
    (terminate_queue_ s) v (num_worker_fibers_ s) (shutdown_ s).
Definition set_num_worker_fibers_ (v : Z) (s : Scheduler) :=
  mkScheduler (main_cntx_ s) (dispatch_cntx_ s) (ready_queue_ s)
    (terminate_queue_ s) (sleep_queue_ s) v (shutdown_ s).

Definition set_fibers (v : gmap nat FiberInterface) (w : World) :=
  mkWorld v (scheds w) (active w) (sched w) (running w).
Definition set_scheds (v : gmap nat Scheduler) (w : World) :=
  mkWorld (fibers w) v (active w) (sched w) (running w).
Definition set_active (v : nat) (w : World) :=
  mkWorld (fibers w) (scheds w) v (sched w) (running w).
Definition set_running (v : nat) (w : World) :=
  mkWorld (fibers w) (scheds w) (active w) (sched w) v.

(** ** The monad of operations

    [Ret a w]: the operation ran to its end, or to the point where it
    switched to another fiber, with result [a] in world [w].
    [Fatal]: a [CHECK] (or an enabled [DCHECK]) failed and the process
    aborted.  [Undefined]: a null or dangling pointer was dereferenced, or
    an empty context was resumed.  [OutOfFuel]: a loop of the model did not
    finish within its iteration bound. *)
Inductive outcome (A : Type) : Type :=
  | Ret (a : A) (w : World)
  | Fatal
  | Undefined
  | OutOfFuel.
Arguments Ret {A} a w.
Arguments Fatal {A}.
Arguments Undefined {A}.
Arguments OutOfFuel {A}.

Definition M (A : Type) : Type := World → outcome A.

#[global] Instance M_ret : MRet M := λ A a w, Ret a w.
#[global] Instance M_bind : MBind M := λ A B f m w,
  match m w with
  | Ret a w' => f a w'
  | Fatal => Fatal
  | Undefined => Undefined
  | OutOfFuel => OutOfFuel
  end.

Definition getw {A} (f : World → A) : M A := λ w, Ret (f w) w.
Definition modw (f : World → World) : M unit := λ w, Ret tt (f w).
Definition fatal {A} : M A := λ _, Fatal.
Definition undefined {A} : M A := λ _, Undefined.
Definition out_of_fuel {A} : M A := λ _, OutOfFuel.

(** [*p] for a fiber pointer and for a scheduler pointer. *)
Definition deref (f : nat) : M FiberInterface := λ w,
  match fibers w !! f with Some x => Ret x w | None => Undefined end.
Definition sderef (s : nat) : M Scheduler := λ w,
  match scheds w !! s with Some x => Ret x w | None => Undefined end.

(** [p->member = ...]. *)
Definition update (f : nat) (g : FiberInterface → FiberInterface) : M unit :=
  x ← deref f; modw (λ w, set_fibers (<[f := g x]> (fibers w)) w).
Definition supdate (s : nat) (g : Scheduler → Scheduler) : M unit :=
  x ← sderef s; modw (λ w, set_scheds (<[s := g x]> (scheds w)) w).

(** [p->scheduler_->...]: a null [scheduler_] is dereferenced. *)
Definition scheduler_of (f : nat) : M nat :=
  x ← deref f;
  match scheduler_ x with Some s => mret s | None => undefined end.

(** [CHECK(b)] of glog: always compiled in, aborts when [b] is false. *)
Definition CHECK (b : bool) : M unit := if b then mret tt else fatal.

(** The hook [list_hook] serves the three list containers ([ready_queue_],
    [terminate_queue_], [wait_queue_]); [sleep_hook] serves [sleep_queue_]. *)
Definition list_hook_is_linked (f : nat) (w : World) : bool :=
  bool_decide
    (map_Exists (λ _ s, f ∈ ready_queue_ s ∨ f ∈ terminate_queue_ s) (scheds w)
     ∨ map_Exists (λ _ x, f ∈ wait_queue_ x) (fibers w)).
Definition sleep_hook_is_linked (f : nat) (w : World) : bool :=
  bool_decide (map_Exists (λ _ s, f ∈ sleep_queue_ s) (scheds w)).

(** Unsigned 32-bit wrap-around ([use_count_] is a [uint32_t]). *)
Definition wrap32 (z : Z) : Z := (z mod 2 ^ 32)%Z.

(** ** The operations of scheduler.cc *)

Section Operations.

(** Build mode: glog's [DCHECK] aborts like [CHECK] in a debug build and
    is compiled out under NDEBUG. *)
Variable dcheck_enabled : bool.

(** The declaration of [num_worker_fibers_] is in scheduler.h; it is an
    unsigned counter (compared with [0u]), and its modulus is a parameter. *)
Variable count_modulus : Z.

Definition DCHECK (b : bool) : M unit :=
  if dcheck_enabled then CHECK b else mret tt.

Definition wrap_count (z : Z) : Z := (z mod count_modulus)%Z.

(** [FiberActive()]. *)
Definition FiberActive : M nat := getw active.

(** Modelled from the spec: [Scheduler::MarkReady] is defined in
    scheduler.h; the spec gives [mark_ready(f)] as "appends f to ready". *)
Definition MarkReady (s cntx : nat) : M unit :=
  supdate s (λ sc, set_ready_queue_ (ready_queue_ sc ++ [cntx]) sc).

(** [FiberInterface::SwitchTo] (lines 311-323).  [std::swap] stores [this]
    in the thread's [active] and leaves the old value in [prev].
    [std::move(entry_).resume_with(fn)] empties [this->entry_], suspends the
    running stack into a fresh continuation [c], moves the thread to the
    stack of the resumed context and runs [fn c] there: [fn] stores [c] in
    [prev->entry_].  The result is the world in which the resumed fiber
    continues. *)
Definition SwitchTo (this : nat) : M unit :=
  prev ← getw active;
  modw (set_active this);;
  me ← deref this;
  match entry_ me with
  | None => undefined
  | Some (Ctx k) =>
      update this (set_entry_ None);;
      c ← getw running;
      modw (set_running k);;
      p ← deref prev;
      DCHECK (bool_decide (entry_ p = None));;
      update prev (set_entry_ (Some (Ctx c)))
  end.

(** [Scheduler::Preempt] (lines 167-178). *)
Definition Preempt (s : nat) : M unit :=
  sc ← sderef s;
  match ready_queue_ sc with
  | [] =>
      match dispatch_cntx_ sc with
      | Some d => SwitchTo d
      | None => undefined
      end
  | fi :: rest =>
      supdate s (set_ready_queue_ rest);;
      SwitchTo fi
  end.

(** [Scheduler::Attach] (lines 180-185). *)
Definition Attach (s cntx : nat) : M unit :=
  update cntx (set_scheduler_ (Some s));;
  x ← deref cntx;
  if bool_decide (type_ x = WORKER)
  then supdate s (λ sc, set_num_worker_fibers_
                          (wrap_count (num_worker_fibers_ sc + 1)) sc)
  else mret tt.

(** [Scheduler::ScheduleTermination] (lines 187-192). *)
Definition ScheduleTermination (s cntx : nat) : M unit :=
  supdate s (λ sc, set_terminate_queue_ (terminate_queue_ sc ++ [cntx]) sc);;
  x ← deref cntx;
  if bool_decide (type_ x = WORKER)
  then supdate s (λ sc, set_num_worker_fibers_
                          (wrap_count (num_worker_fibers_ sc - 1)) sc)
  else mret tt.

(** [FiberInterface::~FiberInterface] (lines 257-261) followed by the
    release of the object's memory. *)
Definition destroy (f : nat) : M unit :=
  x ← deref f;
  DCHECK (bool_decide (wait_queue_ x = []));;
  linked ← getw (list_hook_is_linked f);
  DCHECK (negb linked);;
  modw (λ w, set_fibers (delete f (fibers w)) w).

(** Modelled from the spec: [intrusive_ptr_release] is defined in
    scheduler.h; the spec gives it as "releasing one strong reference per
    entry; entries whose count then reaches zero are destroyed". *)
Definition intrusive_ptr_release (f : nat) : M unit :=
  x ← deref f;
  update f (set_use_count_ (wrap32 (use_count_ x - 1)));;
  if bool_decide (wrap32 (use_count_ x - 1) = 0%Z) then destroy f else mret tt.

(** The loop of [Scheduler::DestroyTerminated] (lines 209-218). *)
Fixpoint DestroyTerminated_loop (fuel : nat) (s : nat) : M unit :=
  match fuel with
  | O => out_of_fuel
  | S fuel' =>
      sc ← sderef s;
      match terminate_queue_ sc with
      | [] => mret tt
      | tfi :: rest =>
          supdate s (set_terminate_queue_ rest);;
          intrusive_ptr_release tfi;;
          DestroyTerminated_loop fuel' s
      end
  end.

Definition DestroyTerminated (s : nat) : M unit :=
  sc ← sderef s;
  DestroyTerminated_loop (S (length (terminate_queue_ sc))) s.

(** [Scheduler::DefaultDispatch] (lines 194-207); the warning it logs has
    no effect on the state. *)
Definition DefaultDispatch (s : nat) : M unit :=
  sc ← sderef s;
  DCHECK (bool_decide (ready_queue_ sc = []));;
  DestroyTerminated s.

(** The wake-time of a fiber in the store, the key of [sleep_queue_]. *)
Definition tp_at (w : World) (f : nat) : Z :=
  match fibers w !! f with Some x => tp_ x | None => 0%Z end.

(** Modelled from the spec: the container type of [sleep_queue_] is
    declared in scheduler.h; the spec gives it as a set "ordered by
    wake_time ascending", "ties broken arbitrarily (insertion order
    acceptable)".  [insert] places the fiber behind the entries whose key is
    not greater; [erase] removes the fiber. *)
Fixpoint sleep_insert (key : nat → Z) (f : nat) (q : list nat) : list nat :=
  match q with
  | [] => [f]
  | g :: q' =>
      if (key f <? key g)%Z then f :: q else g :: sleep_insert key f q'
  end.

Definition sleep_erase (f : nat) (q : list nat) : list nat :=
  filter (λ g, g ≠ f) q.

(** [Scheduler::WaitUntil] (lines 220-226), up to the switch; the
    [DCHECK(!fc)] after [Preempt] runs when the sleeper is resumed. *)
Definition WaitUntil (s : nat) (tp : Z) (me : nat) : M unit :=
  linked ← getw (sleep_hook_is_linked me);
  DCHECK (negb linked);;
  update me (set_tp_ tp);;
  w ← getw id;
  supdate s (λ sc, set_sleep_queue_ (sleep_insert (tp_at w) me (sleep_queue_ sc)) sc);;
  Preempt s.

(** The loop of [Scheduler::ProcessSleep] (lines 233-239): the test at
    its head reads [begin()->tp_ >= now]. *)
Fixpoint ProcessSleep_loop (fuel : nat) (s : nat) (now : Z) : M unit :=
  match fuel with
  | O => out_of_fuel
  | S fuel' =>
      sc ← sderef s;
      match sleep_queue_ sc with
      | [] => undefined
      | fi :: _ =>
          x ← deref fi;
          if (tp_ x >=? now)%Z then
            MarkReady s fi;;
            supdate s (λ sc, set_sleep_queue_ (sleep_erase fi (sleep_queue_ sc)) sc);;
            sc' ← sderef s;
            match sleep_queue_ sc' with
            | [] => mret tt
            | _ :: _ => ProcessSleep_loop fuel' s now
            end
          else mret tt
      end
  end.

(** [Scheduler::ProcessSleep] (lines 228-240); [now] is the reading of the
    steady clock. *)
Definition ProcessSleep (s : nat) (now : Z) : M unit :=
  sc ← sderef s;
  match sleep_queue_ sc with
  | [] => mret tt
  | _ :: _ => ProcessSleep_loop (length (sleep_queue_ sc)) s now
  end.

(** The loop of [FiberInterface::Terminate] (lines 276-282). *)
Fixpoint wake_joiners (fuel : nat) (this : nat) : M unit :=
  match fuel with
  | O => out_of_fuel
  | S fuel' =>
      x ← deref this;
      match wait_queue_ x with
      | [] => mret tt
      | blocked :: rest =>
          update this (set_wait_queue_ rest);;
          bs ← scheduler_of blocked;
          MarkReady bs blocked;;
          wake_joiners fuel' this
      end
  end.

(** [FiberInterface::Terminate], lines 269-282: everything before the
    final [Preempt].  Returns [scheduler_]. *)
Definition Terminate_handoff (this : nat) : M nat :=
  a ← FiberActive;
  DCHECK (bool_decide (this = a));;
  linked ← getw (list_hook_is_linked this);
  DCHECK (negb linked);;
  x ← deref this;
  DCHECK (negb (terminated x));;
  update this (set_terminated true);;
  s ← scheduler_of this;
  ScheduleTermination s this;;
  x' ← deref this;
  wake_joiners (S (length (wait_queue_ x'))) this;;
  mret s.

(** [FiberInterface::Terminate] (lines 268-287). *)
Definition Terminate (this : nat) : M unit :=
  s ← Terminate_handoff this;
  Preempt s.

(** [FiberInterface::Start] (lines 289-293). *)
Definition Start (this : nat) : M unit :=
  s ← getw sched;
  Attach s this;;
  MarkReady s this.

(** [FiberInterface::Join] (lines 295-309). *)
Definition Join (this : nat) : M unit :=
  a ← FiberActive;
  CHECK (bool_decide (a ≠ this));;
  xa ← deref a;
  x ← deref this;
  CHECK (bool_decide (scheduler_ xa = scheduler_ x));;
  if negb (terminated x) then
    update this (set_wait_queue_ (a :: wait_queue_ x));;
    s ← scheduler_of this;
    Preempt s
  else mret tt.

(** How [DispatcherImpl::Run] leaves: by returning a context, or suspended
    in its switch to the main fiber. *)
Inductive run_exit : Set :=
  | Returned (c : fiber_context)
  | SwitchedToMain.

(** [DispatcherImpl::Run] (lines 112-137) up to the switch to the main
    fiber.  [custom_algo] is [FbInitializer().custom_algo], an empty
    [std::function] being [None]. *)
Definition Run (custom_algo : option (nat → M unit)) (this : nat)
    (c : option fiber_context) : M run_exit :=
  match c with
  | Some k => mret (Returned k)
  | None =>
      s ← getw sched;
      match custom_algo with
      | Some algo => algo s
      | None => DefaultDispatch s
      end;;
      update this (set_is_terminating_ true);;
      s' ← getw sched;
      sc ← sderef s';
      SwitchTo (main_cntx_ sc);;
      mret SwitchedToMain
  end.

(** The end of [DispatcherImpl::Run] (lines 135-136), run when the
    dispatcher is resumed with the context [fc]. *)
Definition Run_resumed (fc : option fiber_context) : M (option fiber_context) :=
  DCHECK (bool_decide (is_Some fc));;
  mret fc.


(** The operations of the file as commands, for statements about every
    operation.  [OpRun] is the dispatcher body without a custom algorithm. *)
Inductive op : Type :=
  | OpSwitchTo (f : nat)
  | OpPreempt (s : nat)
  | OpAttach (s f : nat)
  | OpMarkReady (s f : nat)
  | OpScheduleTermination (s f : nat)
  | OpRelease (f : nat)
  | OpDestroyTerminated (s : nat)
  | OpDefaultDispatch (s : nat)
  | OpWaitUntil (s : nat) (tp : Z) (me : nat)
  | OpProcessSleep (s : nat) (now : Z)
  | OpTerminate (f : nat)
  | OpStart (f : nat)
  | OpJoin (f : nat)
  | OpRun (this : nat) (c : option fiber_context).

Definition exec (o : op) : M unit :=
  match o with
  | OpSwitchTo f => SwitchTo f
  | OpPreempt s => Preempt s
  | OpAttach s f => Attach s f
  | OpMarkReady s f => MarkReady s f
  | OpScheduleTermination s f => ScheduleTermination s f
  | OpRelease f => intrusive_ptr_release f
  | OpDestroyTerminated s => DestroyTerminated s
  | OpDefaultDispatch s => DefaultDispatch s
  | OpWaitUntil s tp me => WaitUntil s tp me
  | OpProcessSleep s now => ProcessSleep s now
  | OpTerminate f => Terminate f
  | OpStart f => Start f
  | OpJoin f => Join f
  | OpRun this c => Run None this c;; mret tt
  end.

Fixpoint exec_all (os : list op) : M unit :=
  match os with
  | [] => mret tt
  | o :: os' => exec o;; exec_all os'
  end.

End Operations.

(** ** The constructor of [FiberInterface] (lines 248-255) *)

Section Name.

(** [sizeof(name_)]: the array [name_] is declared in scheduler.h. *)
Variable sizeof_name : nat.

(** The body of the constructor on the bytes of [name_]; [buf] is the
    content of the array before the constructor runs. *)
Definition init_name (buf nm : list byte) : list byte :=
  let len := Nat.min (length nm) (sizeof_name - 1) in
  let buf' := <[len := x00]> buf in
  match len with
  | O => buf'
  | S _ => take len nm ++ drop len buf'
  end.

(** The constructed object; the members the constructor does not mention
    are default-initialised (empty context, null scheduler, empty wait
    queue). *)
Definition FiberInterface_ctor (buf : list byte) (type : Type_) (cnt : Z)
    (nm : list byte) : FiberInterface :=
  mkFiberInterface None type cnt false None 0%Z [] (init_name buf nm) false.

End Name.

(** A character array read as a C string: the bytes before the first NUL. *)
Fixpoint c_str (buf : list byte) : list byte :=
  match buf with
  | [] => []
  | b :: buf' => if Byte.eqb b x00 then [] else b :: c_str buf'
  end.

(** ** Invariants *)

(** The bookkeeping of the code agrees with the continuation primitive:
    the [active] pointer names the running stack, the running fiber is the
    one whose [entry_] is empty, and every populated [entry_] is the
    suspended execution of its own fiber. *)
Definition entry_ok (w : World) (f : nat) (x : FiberInterface) : Prop :=
  match entry_ x with
  | None => f = active w
  | Some (Ctx k) => k = f ∧ f ≠ active w
  end.

#[global] Instance entry_ok_dec w f x : Decision (entry_ok w f x).
Proof. unfold entry_ok. destruct (entry_ x) as [[k]|]; apply _. Defined.

Definition lockstep (w : World) : Prop :=
  running w = active w ∧
  is_Some (fibers w !! active w) ∧
  map_Forall (entry_ok w) (fibers w).

#[global] Instance lockstep_dec w : Decision (lockstep w).
Proof. unfold lockstep. apply _. Defined.

(** No fiber object appears, and a [terminated] flag that is set stays
    set. *)
Definition terminated_kept (w w' : World) : Prop :=
  ∀ f x', fibers w' !! f = Some x' →
    ∃ x, fibers w !! f = Some x ∧ (terminated x = true → terminated x' = true).

(** The schedulers are the same objects with the ready queue and the sleep
    set they had, and no switch took place. *)
Definition ready_sleep_kept (w w' : World) : Prop :=
  (∀ s, (λ sc, (ready_queue_ sc, sleep_queue_ sc)) <$> scheds w' !! s
        = (λ sc, (ready_queue_ sc, sleep_queue_ sc)) <$> scheds w !! s) ∧
  active w' = active w ∧ running w' = running w ∧ sched w' = sched w.

(** An operation whose every completed run relates the worlds by [R]. *)
Definition respects (R : World → World → Prop) {A} (m : M A) : Prop :=
  ∀ w a w', m w = Ret a w' → R w w'.

(** ** Example worlds

    One scheduler (0) with main fiber 0, dispatcher 1 and workers 2, 3, 4
    whose wake-times are 5, 20 and 30; fiber [act] is running and [wq2] is
    the joiner list of worker 2. *)
Definition ex_fiber (act i : nat) (ty : Type_) (tp : Z) (wq : list nat)
    : FiberInterface :=
  mkFiberInterface (if bool_decide (i = act) then None else Some (Ctx i))
    ty 1 false (Some 0) tp wq [] false.

Definition ex_sched (ready pending sleeping : list nat) : Scheduler :=
  mkScheduler 0 (Some 1) ready pending sleeping 3 false.

Definition ex_world (act : nat) (ready pending sleeping wq2 : list nat) : World :=
  mkWorld
    (list_to_map [(0, ex_fiber act 0 MAIN 0 []); (1, ex_fiber act 1 DISPATCH 0 []);
                  (2, ex_fiber act 2 WORKER 5 wq2); (3, ex_fiber act 3 WORKER 20 []);
                  (4, ex_fiber act 4 WORKER 30 [])])
    {[0 := ex_sched ready pending sleeping]}
    act 0 act.

(** ** Auxiliary notions for the statements *)

(** [f->scheduler_] read from the store. *)
Definition sched_of (w : World) (f : nat) : option nat :=
  fibers w !! f ≫= scheduler_.

(** The joiners in [wq] that belong to scheduler [s], in the order of [wq]. *)
Definition joiners_of (w : World) (s : nat) (wq : list nat) : list nat :=
  filter (λ b, sched_of w b = Some s) wq.

(** A scheduler object after [ScheduleTermination] of a fiber of type [ty]. *)
Definition after_ScheduleTermination (count_modulus : Z) (ty : Type_)
    (cntx : nat) (sc : Scheduler) : Scheduler :=
  let sc1 := set_terminate_queue_ (terminate_queue_ sc ++ [cntx]) sc in
  if bool_decide (ty = WORKER)
  then set_num_worker_fibers_
         (wrap_count count_modulus (num_worker_fibers_ sc1 - 1)) sc1
  else sc1.

(** A scheduler object after [cs] were marked ready in turn. *)
Definition after_MarkReady (cs : list nat) (sc : Scheduler) : Scheduler :=
  set_ready_queue_ (ready_queue_ sc ++ cs) sc.

(** The fiber [Preempt] switches to: the front of the ready queue, or the
    dispatcher when the queue is empty. *)
Definition next_fiber (sc : Scheduler) : option nat :=
  match ready_queue_ sc with
  | fi :: _ => Some fi
  | [] => dispatch_cntx_ sc
  end.


(** The fibers [js], then [T], are about to run in this order on scheduler
    [s]: the first of them is active and the others head the ready queue,
    followed by [rest]; [T] has not terminated and is linked nowhere else. *)
Definition joining (T s : nat) (js rest : list nat) (w : World) : Prop :=
  lockstep w ∧
  NoDup (js ++ [T]) ∧
  (λ sc, active w :: ready_queue_ sc) <$> scheds w !! s = Some (js ++ T :: rest) ∧
  Forall (λ f, sched_of w f = Some s) (js ++ [T]) ∧
  terminated <$> fibers w !! T = Some false ∧
  map_Forall (λ s' sc', (T ∉ terminate_queue_ sc') ∧
                        (s' ≠ s → T ∉ ready_queue_ sc')) (scheds w) ∧
  (T ∉ rest) ∧
  map_Forall (λ _ x, T ∉ wait_queue_ x) (fibers w).

#[global] Instance joining_dec T s js rest w : Decision (joining T s js rest w).
Proof. unfold joining. apply _. Defined.

(** Fiber [f], pending in the [terminate_queue_] of scheduler [s], can be
    released: the object exists and, where the destructor's [DCHECK]s are
    compiled in, it has no joiners and is linked nowhere else. *)
Definition pending_ok (dc : bool) (s : nat) (w : World) (f : nat) : Prop :=
  match fibers w !! f with
  | None => False
  | Some x =>
      dc = true →
      wait_queue_ x = [] ∧
      map_Forall (λ s' sc', (f ∉ ready_queue_ sc') ∧
                            (s' ≠ s → f ∉ terminate_queue_ sc')) (scheds w) ∧
      map_Forall (λ _ y, f ∉ wait_queue_ y) (fibers w)
  end.

#[global] Instance pending_ok_dec dc s w f : Decision (pending_ok dc s w f).
Proof. unfold pending_ok. destruct (fibers w !! f); apply _. Defined.

(** The part of [lockstep] that does not ask for the active fiber to be in
    the store, and the relation "if it held before, it holds after". *)
Definition switch_inv (w : World) : Prop :=
  running w = active w ∧ map_Forall (entry_ok w) (fibers w).

Definition keeps_switch_inv (w w' : World) : Prop :=
  switch_inv w → switch_inv w'.

(** ** A caller blocked in [Join]

    [blocked_inv C F w]: fiber [C] waits in the joiner list of the fiber
    [F], which has not terminated; [C] is attached to a scheduler, is not
    the active fiber, is in no ready queue, sleep set or termination queue
    and in no other joiner list, and is neither the main fiber nor the
    dispatcher of a scheduler; [F] is in no termination queue. *)
Definition sched_clear (C F : nat) (sc : Scheduler) : Prop :=
  (C ∉ ready_queue_ sc) ∧ (C ∉ sleep_queue_ sc) ∧
  (C ∉ terminate_queue_ sc) ∧ (F ∉ terminate_queue_ sc) ∧
  dispatch_cntx_ sc ≠ Some C ∧ main_cntx_ sc ≠ C.

Definition fiber_clear (C F f : nat) (x : FiberInterface) : Prop :=
  (C ∈ wait_queue_ x → f = F) ∧
  (f = F → terminated x = false ∧ C ∈ wait_queue_ x) ∧
  (f = C → is_Some (scheduler_ x)).

Definition blocked_inv (C F : nat) (w : World) : Prop :=
  is_Some (fibers w !! F) ∧ is_Some (fibers w !! C) ∧
  active w ≠ C ∧
  map_Forall (λ _ sc, sched_clear C F sc) (scheds w) ∧
  map_Forall (fiber_clear C F) (fibers w).

#[global] Instance blocked_inv_dec C F w : Decision (blocked_inv C F w).
Proof. unfold blocked_inv, sched_clear, fiber_clear. apply _. Defined.

(** The operations by which fibers and the dispatcher drive the scheduler,
    short of the termination of [F]: [Join], a yield through [Preempt],
    [WaitUntil] and [Terminate] of the calling fiber itself, [Start] of a
    fiber not yet attached, [ProcessSleep], and the dispatcher's work. *)
Definition protocol_step (F : nat) (o : op) (w : World) : Prop :=
  match o with
  | OpJoin _ | OpPreempt _ | OpProcessSleep _ _ => True
  | OpDefaultDispatch _ | OpDestroyTerminated _ | OpRun _ _ => True
  | OpTerminate f => f = active w ∧ f ≠ F
  | OpWaitUntil _ _ me => me = active w
  | OpStart f => sched_of w f = None
  | OpSwitchTo _ | OpAttach _ _ | OpMarkReady _ _ => False
  | OpScheduleTermination _ _ | OpRelease _ => False
  end.

#[global] Instance protocol_step_dec F o w : Decision (protocol_step F o w).
Proof. destruct o; simpl; apply _. Defined.


(** An operation that keeps [P] and whose result satisfies [Q]. *)
Definition hoare (P : World → Prop) {A} (m : M A) (Q : A → Prop) : Prop :=
  ∀ w a w', P w → m w = Ret a w' → P w' ∧ Q a.

(** The fiber [C], about to join [F], is linked nowhere and is neither a
    main fiber nor a dispatcher, and [F] is in no termination queue. *)
Definition caller_clear (C F : nat) (w : World) : Prop :=
  map_Forall (λ _ sc, sched_clear C F sc) (scheds w) ∧
  map_Forall (λ _ x, C ∉ wait_queue_ x) (fibers w).

#[global] Instance caller_clear_dec C F w : Decision (caller_clear C F w).
Proof. unfold caller_clear, sched_clear. apply _. Defined.

(** ** Construction and destruction of the scheduler *)

Definition set_dispatch_cntx_ (v : option nat) (s : Scheduler) :=
  mkScheduler (main_cntx_ s) v (ready_queue_ s) (terminate_queue_ s)
    (sleep_queue_ s) (num_worker_fibers_ s) (shutdown_ s).
Definition set_shutdown_ (v : bool) (s : Scheduler) :=
  mkScheduler (main_cntx_ s) (dispatch_cntx_ s) (ready_queue_ s)
    (terminate_queue_ s) (sleep_queue_ s) (num_worker_fibers_ s) v.
Definition set_sched (v : nat) (w : World) :=
  mkWorld (fibers w) (scheds w) (active w) v (running w).

(** The name literals of the two built-in fibers. *)
Definition name_main : list byte := [x6d; x61; x69; x6e].
Definition name_dispatch : list byte :=
  [x5f; x64; x69; x73; x70; x61; x74; x63; x68].

Section Construction.

Variable dcheck_enabled : bool.

(** [sizeof(name_)] and the bytes found in the two [name_] arrays before
    the constructors run. *)
Variable sizeof_name : nat.
Variables buf_main buf_dispatch : list byte.

(** [MainFiberImpl::MainFiberImpl] (line 41). *)
Definition MainFiberImpl_ctor : FiberInterface :=
  FiberInterface_ctor sizeof_name buf_main MAIN 1 name_main.

(** [DispatcherImpl::DispatcherImpl] (lines 98-104) for the object at
    address [this]: [entry_] is a new context on the dispatcher's own
    stack, not yet entered. *)
Definition DispatcherImpl_ctor (this sched : nat) : FiberInterface :=
  set_scheduler_ (Some sched)
    (set_entry_ (Some (Ctx this))
       (FiberInterface_ctor sizeof_name buf_dispatch DISPATCH 0 name_dispatch)).

(** [MakeDispatcher] (lines 50-59): the object is built, by placement
    [new], at the address [d] on top of the stack it allocates. *)
Definition MakeDispatcher (d sched : nat) : M nat :=
  modw (λ w, set_fibers (<[d := DispatcherImpl_ctor d sched]> (fibers w)) w);;
  mret d.

(** Modelled from the spec: [intrusive_ptr_add_ref], which
    [dispatch_cntx_.reset(p)] calls, is defined in scheduler.h; the spec
    gives [ref_count] as the count of strong references and the scheduler as
    owning one strong reference to its dispatcher. *)
Definition intrusive_ptr_add_ref (f : nat) : M unit :=
  update f (λ x, set_use_count_ (wrap32 (use_count_ x + 1)) x).

(** [Scheduler::Scheduler] (lines 142-146) for the object at address
    [this]; [d] is the address [MakeDispatcher] obtains.  The queues start
    empty, the counter at 0 and [shutdown_] false (the member initialisers
    are in scheduler.h). *)
Definition Scheduler_ctor (this d main_cntx : nat) : M unit :=
  modw (λ w, set_scheds
               (<[this := mkScheduler main_cntx None [] [] [] 0 false]> (scheds w)) w);;
  m ← deref main_cntx;
  DCHECK dcheck_enabled (bool_decide (scheduler_ m = None));;
  update main_cntx (set_scheduler_ (Some this));;
  p ← MakeDispatcher d this;
  supdate this (set_dispatch_cntx_ (Some p));;
  intrusive_ptr_add_ref p.

(** [FiberInitializer::FiberInitializer] (lines 74-82); [m], [s] and [d]
    are the addresses of the three objects it allocates. *)
Definition FiberInitializer_ctor (m s d : nat) : M unit :=
  modw (λ w, set_fibers (<[m := MainFiberImpl_ctor]> (fibers w)) w);;
  modw (set_active m);;
  Scheduler_ctor s d m;;
  modw (set_sched s).

(** [Scheduler::~Scheduler], lines 149-156: up to its switch to the
    dispatcher.  The result tells whether it switched. *)
Definition Scheduler_dtor_enter (s : nat) : M bool :=
  supdate s (set_shutdown_ true);;
  sc ← sderef s;
  a ← getw active;
  DCHECK dcheck_enabled (bool_decide (main_cntx_ sc = a));;
  DCHECK dcheck_enabled (bool_decide (ready_queue_ sc = []));;
  match dispatch_cntx_ sc with
  | None => undefined
  | Some d =>
      xd ← deref d;
      if negb (is_terminating_ xd) then SwitchTo dcheck_enabled d;; mret true
      else mret false
  end.

(** Lines 157-158, run when the main fiber is resumed with the context
    [fc]. *)
Definition Scheduler_dtor_resumed (s : nat) (fc : option fiber_context) : M unit :=
  CHECK (bool_decide (fc = None));;
  sc ← sderef s;
  match dispatch_cntx_ sc with
  | None => undefined
  | Some d => xd ← deref d; CHECK (is_terminating_ xd)
  end.

(** The destructor up to line 158 as the thread runs it when no custom
    algorithm is installed: the switch enters the body of the dispatcher,
    whose own switch resumes the main fiber with the empty context that
    [SwitchTo] passes on. *)
Definition Scheduler_dtor_handshake (s : nat) : M unit :=
  switched ← Scheduler_dtor_enter s;
  if switched : bool then
    d ← getw active;
    Run dcheck_enabled None d None;;
    Scheduler_dtor_resumed s None
  else mret tt.

(** Lines 149-160 of [Scheduler::~Scheduler].  What follows them,
    [dispatch_cntx_.reset()], releases the dispatcher through the
    [intrusive_ptr_release] of scheduler.h. *)
Definition Scheduler_dtor_shutdown (s : nat) : M unit :=
  Scheduler_dtor_handshake s;;
  sc ← sderef s;
  DCHECK dcheck_enabled (bool_decide (num_worker_fibers_ sc = 0%Z)).

End Construction.

(** [Start] of the fibers [fs] one after the other. *)
Fixpoint Start_all (count_modulus : Z) (fs : list nat) : M unit :=
  match fs with
  | [] => mret tt
  | f :: fs' => Start count_modulus f;; Start_all count_modulus fs'
  end.

(** The number of WORKER fibers among [fs]. *)
Definition workers_among (w : World) (fs : list nat) : nat :=
  length (filter (λ f, type_ <$> fibers w !! f = Some WORKER) fs).

(** A scheduler object after [Attach] of a fiber of type [ty]. *)
Definition after_Attach (count_modulus : Z) (ty : Type_) (sc : Scheduler)
    : Scheduler :=
  if bool_decide (ty = WORKER)
  then set_num_worker_fibers_
         (wrap_count count_modulus (num_worker_fibers_ sc + 1)) sc
  else sc.

(** The sleep set is in ascending order of wake-time. *)
Definition sleep_sorted (w : World) (q : list nat) : Prop :=
  StronglySorted (λ a b, (tp_at w a ≤ tp_at w b)%Z) q.


(** What is left of a fiber object when one strong reference to it is
    released: nothing when it was the last one. *)
Definition released (x : FiberInterface) : option FiberInterface :=
  if bool_decide (wrap32 (use_count_ x - 1) = 0%Z) then None
  else Some (set_use_count_ (wrap32 (use_count_ x - 1)) x).

(** The store after one strong reference to the fiber at [f] is released,
    and after one is released for each entry of [tq] in turn. *)
Definition release_in (f : nat) (m : gmap nat FiberInterface)
    : gmap nat FiberInterface :=
  partial_alter (λ o, o ≫= released) f m.

Definition release_all (tq : list nat) (m : gmap nat FiberInterface)
    : gmap nat FiberInterface :=
  foldl (λ m f, release_in f m) m tq.


(** ** Reasoning about monadic computations *)

Lemma bind_Ret {A B} (m : M A) (k : A → M B) w a w' :
  m w = Ret a w' → (m ≫= k) w = k a w'.
Proof. intros H. unfold mbind, M_bind. by rewrite H. Qed.

Lemma bind_Ret_inv {A B} (m : M A) (k : A → M B) w b w2 :
  (m ≫= k) w = Ret b w2 → ∃ a w1, m w = Ret a w1 ∧ k a w1 = Ret b w2.
Proof.
  unfold mbind, M_bind. destruct (m w) as [a w1| | |]; try discriminate.
  intros H. by exists a, w1.
Qed.

Lemma deref_Ret f w x : fibers w !! f = Some x → deref f w = Ret x w.
Proof. intros H. unfold deref. by rewrite H. Qed.

Lemma deref_Ret_inv f w x w' :
  deref f w = Ret x w' → w' = w ∧ fibers w !! f = Some x.
Proof. unfold deref. destruct (fibers w !! f); naive_solver. Qed.

Lemma sderef_Ret s w x : scheds w !! s = Some x → sderef s w = Ret x w.
Proof. intros H. unfold sderef. by rewrite H. Qed.

Lemma sderef_Ret_inv s w x w' :
  sderef s w = Ret x w' → w' = w ∧ scheds w !! s = Some x.
Proof. unfold sderef. destruct (scheds w !! s); naive_solver. Qed.

Lemma update_Ret f g w x :
  fibers w !! f = Some x →
  update f g w = Ret tt (set_fibers (<[f := g x]> (fibers w)) w).
Proof. intros H. unfold update. by rewrite (bind_Ret _ _ _ _ _ (deref_Ret _ _ _ H)). Qed.

Lemma update_Ret_inv f g w u w' :
  update f g w = Ret u w' →
  ∃ x, fibers w !! f = Some x ∧ w' = set_fibers (<[f := g x]> (fibers w)) w.
Proof.
  unfold update. intros (x & w1 & H1 & H2)%bind_Ret_inv.
  apply deref_Ret_inv in H1 as [-> H1]. exists x. split; [done|].
  unfold modw in H2. congruence.
Qed.

Lemma supdate_Ret s g w x :
  scheds w !! s = Some x →
  supdate s g w = Ret tt (set_scheds (<[s := g x]> (scheds w)) w).
Proof. intros H. unfold supdate. by rewrite (bind_Ret _ _ _ _ _ (sderef_Ret _ _ _ H)). Qed.

Lemma supdate_Ret_inv s g w u w' :
  supdate s g w = Ret u w' →
  ∃ x, scheds w !! s = Some x ∧ w' = set_scheds (<[s := g x]> (scheds w)) w.
Proof.
  unfold supdate. intros (x & w1 & H1 & H2)%bind_Ret_inv.
  apply sderef_Ret_inv in H1 as [-> H1]. exists x. split; [done|].
  unfold modw in H2. congruence.
Qed.

Lemma scheduler_of_Ret f w x s :
  fibers w !! f = Some x → scheduler_ x = Some s → scheduler_of f w = Ret s w.
Proof.
  intros H Hs. unfold scheduler_of.
  rewrite (bind_Ret _ _ _ _ _ (deref_Ret _ _ _ H)). by rewrite Hs.
Qed.

Lemma scheduler_of_Ret_inv f w s w' :
  scheduler_of f w = Ret s w' →
  w' = w ∧ ∃ x, fibers w !! f = Some x ∧ scheduler_ x = Some s.
Proof.
  unfold scheduler_of. intros (x & w1 & H1 & H2)%bind_Ret_inv.
  apply deref_Ret_inv in H1 as [-> H1].
  destruct (scheduler_ x) as [s'|] eqn:E; [|discriminate].
  injection H2 as -> ->. eauto.
Qed.

Lemma CHECK_Ret_inv b w u w' : CHECK b w = Ret u w' → b = true ∧ w' = w.
Proof. destruct b; simpl; [|discriminate]. unfold mret, M_ret. naive_solver. Qed.

Lemma DCHECK_true dc w : DCHECK dc true w = Ret tt w.
Proof. unfold DCHECK. by destruct dc. Qed.

Lemma DCHECK_off b w : DCHECK false b w = Ret tt w.
Proof. done. Qed.

Lemma DCHECK_Ret_inv dc b w u w' :
  DCHECK dc b w = Ret u w' → w' = w ∧ (dc = true → b = true).
Proof.
  unfold DCHECK. destruct dc.
  - intros [-> ->]%CHECK_Ret_inv. done.
  - unfold mret, M_ret. naive_solver.
Qed.

Lemma mret_Ret_inv {A} (a b : A) w w' :
  (mret a : M A) w = Ret b w' → b = a ∧ w' = w.
Proof. unfold mret, M_ret. naive_solver. Qed.

Lemma getw_Ret_inv {A} (f : World → A) w a w' :
  getw f w = Ret a w' → a = f w ∧ w' = w.
Proof. unfold getw. naive_solver. Qed.

Lemma modw_Ret_inv f w u w' : modw f w = Ret u w' → w' = f w.
Proof. unfold modw. naive_solver. Qed.

(** Decompose a hypothesis [m w = Ret a w'] along the binds of [m]. *)
Ltac minv H :=
  let x := fresh "x" in
  let w := fresh "w" in
  let H1 := fresh "Hm" in
  first
    [ apply bind_Ret_inv in H as (x & w & H1 & H); minv H1; minv H
    | apply deref_Ret_inv in H as [-> H]
    | apply sderef_Ret_inv in H as [-> H]
    | apply update_Ret_inv in H as (x & H1 & ->)
    | apply supdate_Ret_inv in H as (x & H1 & ->)
    | apply scheduler_of_Ret_inv in H as [-> (x & H1 & H)]
    | apply CHECK_Ret_inv in H as [H ->]
    | apply DCHECK_Ret_inv in H as [-> H]
    | apply mret_Ret_inv in H as [-> ->]
    | apply getw_Ret_inv in H as [-> ->]
    | apply modw_Ret_inv in H as ->
    | idtac ].

(** ** The switch protocol *)

Lemma SwitchTo_Ret dc this w me k p :
  fibers w !! this = Some me →
  entry_ me = Some (Ctx k) →
  fibers w !! active w = Some p →
  entry_ p = None →
  SwitchTo dc this w =
    Ret tt (mkWorld
              (<[active w := set_entry_ (Some (Ctx (running w))) p]>
                 (<[this := set_entry_ None me]> (fibers w)))
              (scheds w) this (sched w) k).
Proof.
  intros Hme Hk Hp Hnone.
  assert (active w ≠ this) as Hne by (intros E; rewrite E in Hp; congruence).
  unfold SwitchTo.
  unfold mbind at 1, M_bind, getw. unfold mbind at 1, M_bind, modw.
  erewrite bind_Ret; [|by apply deref_Ret].
  rewrite Hk.
  erewrite bind_Ret; [|by apply update_Ret].
  unfold mbind at 1, M_bind, getw. unfold mbind at 1, M_bind, modw.
  erewrite bind_Ret;
    [|apply deref_Ret; simpl; rewrite lookup_insert_ne; [exact Hp|done]].
  erewrite bind_Ret; [|rewrite Hnone; apply DCHECK_true].
  erewrite update_Ret;
    [|simpl; rewrite lookup_insert_ne; [exact Hp|done]].
  done.
Qed.

Lemma SwitchTo_Ret_inv dc this w u w' :
  SwitchTo dc this w = Ret u w' →
  ∃ me k p,
    fibers w !! this = Some me ∧ entry_ me = Some (Ctx k) ∧
    fibers (set_fibers (<[this := set_entry_ None me]> (fibers w)) w)
      !! active w = Some p ∧
    w' = mkWorld
           (<[active w := set_entry_ (Some (Ctx (running w))) p]>
              (<[this := set_entry_ None me]> (fibers w)))
           (scheds w) this (sched w) k.
Proof.
  unfold SwitchTo. intros H.
  apply bind_Ret_inv in H as (prev & w1 & H1 & H). minv H1.
  apply bind_Ret_inv in H as (? & w2 & H2 & H). minv H2.
  apply bind_Ret_inv in H as (me & w3 & H3 & H). minv H3.
  destruct (entry_ me) as [[k]|] eqn:Hk; [|discriminate].
  minv H. simplify_eq/=. eexists _, _, _. repeat split; eauto.
Qed.

Lemma lockstep_active w :
  lockstep w → ∃ p, fibers w !! active w = Some p ∧ entry_ p = None.
Proof.
  intros (_ & [p Hp] & Hall). exists p. split; [done|].
  specialize (Hall _ _ Hp). unfold entry_ok in Hall.
  destruct (entry_ p) as [[k]|]; [|done]. by destruct Hall.
Qed.

Lemma lockstep_suspended w f x :
  lockstep w → fibers w !! f = Some x → is_Some (entry_ x) →
  entry_ x = Some (Ctx f) ∧ f ≠ active w.
Proof.
  intros (_ & _ & Hall) Hx [c Hc]. specialize (Hall _ _ Hx).
  unfold entry_ok in Hall. rewrite Hc in Hall. destruct c as [k].
  destruct Hall as [-> ?]. done.
Qed.

Lemma SwitchTo_lockstep_aux dc w target xt :
  lockstep w →
  fibers w !! target = Some xt → is_Some (entry_ xt) →
  ∃ w' xp,
    SwitchTo dc target w = Ret tt w' ∧
    active w' = target ∧ running w' = target ∧
    fibers w !! active w = Some xp ∧
    fibers w' = <[active w := set_entry_ (Some (Ctx (active w))) xp]>
                  (<[target := set_entry_ None xt]> (fibers w)) ∧
    scheds w' = scheds w ∧ sched w' = sched w ∧
    target ≠ active w ∧
    lockstep w'.
Proof.
  intros Hl Hxt Hsome.
  destruct (lockstep_active _ Hl) as (p & Hp & Hpe).
  destruct (lockstep_suspended _ _ _ Hl Hxt Hsome) as [Hk Hne].
  destruct Hl as (Hrun & _ & Hall).
  eexists _, p. split; [by eapply SwitchTo_Ret|]. simpl.
  rewrite Hrun. repeat split; try done.
  - simpl. rewrite lookup_insert_ne by done. rewrite lookup_insert_eq. eauto.
  - intros f x Hf. unfold entry_ok. simpl in *.
    destruct (decide (f = active w)) as [->|Hfa].
    + rewrite lookup_insert_eq in Hf. injection Hf as <-. simpl. done.
    + rewrite lookup_insert_ne in Hf by done.
      destruct (decide (f = target)) as [->|Hft].
      * rewrite lookup_insert_eq in Hf. injection Hf as <-. done.
      * rewrite lookup_insert_ne in Hf by done.
        specialize (Hall _ _ Hf). unfold entry_ok in Hall.
        destruct (entry_ x) as [[k]|]; [|done].
        destruct Hall as [Hk' _]. done.
Qed.

(** ** Selection of the next fiber *)

Lemma Preempt_Ret_inv dc s w u w' :
  Preempt dc s w = Ret u w' →
  ∃ sc, scheds w !! s = Some sc ∧
    match ready_queue_ sc with
    | fi :: rest =>
        SwitchTo dc fi (set_scheds (<[s := set_ready_queue_ rest sc]> (scheds w)) w)
          = Ret u w'
    | [] => ∃ d, dispatch_cntx_ sc = Some d ∧ SwitchTo dc d w = Ret u w'
    end.
Proof.
  unfold Preempt. intros H.
  apply bind_Ret_inv in H as (sc & w1 & H1 & H). minv H1.
  exists sc. split; [done|].
  destruct (ready_queue_ sc) as [|fi rest].
  - destruct (dispatch_cntx_ sc) as [d|]; [|discriminate]. eauto.
  - apply bind_Ret_inv in H as (? & w2 & H2 & H).
    apply supdate_Ret_inv in H2 as (sc' & Hsc' & ->). by simplify_eq.
Qed.

Lemma Preempt_ready dc s w sc fi rest :
  scheds w !! s = Some sc → ready_queue_ sc = fi :: rest →
  Preempt dc s w =
    SwitchTo dc fi (set_scheds (<[s := set_ready_queue_ rest sc]> (scheds w)) w).
Proof.
  intros Hsc Hq. unfold Preempt.
  erewrite bind_Ret; [|by apply sderef_Ret]. rewrite Hq.
  erewrite bind_Ret; [|by apply supdate_Ret]. done.
Qed.

Lemma Preempt_idle dc s w sc d :
  scheds w !! s = Some sc → ready_queue_ sc = [] → dispatch_cntx_ sc = Some d →
  Preempt dc s w = SwitchTo dc d w.
Proof.
  intros Hsc Hq Hd. unfold Preempt.
  erewrite bind_Ret; [|by apply sderef_Ret]. by rewrite Hq, Hd.
Qed.

Lemma lockstep_set_scheds v w : lockstep (set_scheds v w) ↔ lockstep w.
Proof. done. Qed.

Lemma lockstep_running_iff w f x :
  lockstep w → fibers w !! f = Some x → (entry_ x = None ↔ f = active w).
Proof.
  intros Hl Hx. split.
  - intros He. destruct Hl as (_ & _ & Hall). specialize (Hall _ _ Hx).
    unfold entry_ok in Hall. by rewrite He in Hall.
  - intros ->. destruct (lockstep_active _ Hl) as (p & Hp & Hpe). congruence.
Qed.

Lemma SwitchTo_frame dc this w u w' :
  SwitchTo dc this w = Ret u w' →
  active w' = this ∧ scheds w' = scheds w ∧ sched w' = sched w.
Proof. intros (me & k & p & _ & _ & _ & ->)%SwitchTo_Ret_inv. done. Qed.

Lemma Preempt_Ret_selected dc s w sc u w' :
  scheds w !! s = Some sc →
  Preempt dc s w = Ret u w' →
  match ready_queue_ sc with
  | fi :: rest =>
      active w' = fi ∧
      scheds w' = <[s := set_ready_queue_ rest sc]> (scheds w)
  | [] => dispatch_cntx_ sc = Some (active w') ∧ scheds w' = scheds w
  end.
Proof.
  intros Hsc (sc' & Hsc' & H)%Preempt_Ret_inv.
  assert (sc' = sc) as -> by congruence.
  destruct (ready_queue_ sc) as [|fi rest].
  - destruct H as (d & Hd & H). apply SwitchTo_frame in H as (-> & -> & _).
    done.
  - apply SwitchTo_frame in H as (-> & -> & _). done.
Qed.

Lemma Preempt_lockstep dc s w sc t xt :
  scheds w !! s = Some sc →
  lockstep w →
  (match ready_queue_ sc with
   | fi :: _ => Some fi
   | [] => dispatch_cntx_ sc
   end) = Some t →
  fibers w !! t = Some xt → is_Some (entry_ xt) →
  ∃ w' xp, Preempt dc s w = Ret tt w' ∧
        active w' = t ∧ running w' = t ∧ sched w' = sched w ∧
        fibers w !! active w = Some xp ∧
        fibers w' = <[active w := set_entry_ (Some (Ctx (active w))) xp]>
                      (<[t := set_entry_ None xt]> (fibers w)) ∧
        scheds w' = <[s := set_ready_queue_ (tail (ready_queue_ sc)) sc]> (scheds w) ∧
        t ≠ active w ∧
        lockstep w'.
Proof.
  intros Hsc Hl Ht Hxt Hsome.
  destruct (ready_queue_ sc) as [|fi rest] eqn:Hq.
  - rewrite (Preempt_idle dc s w sc t) by done.
    destruct (SwitchTo_lockstep_aux dc _ _ _ Hl Hxt Hsome)
      as (w' & xp & HS & Ha & Hr & Hp & Hf & Hscs & Hsd & Hne & Hl').
    exists w', xp. split_and!; try done.
    rewrite Hscs. simpl. symmetry. apply insert_id. rewrite Hsc. f_equal.
    destruct sc; simpl in *; by subst.
  - injection Ht as ->.
    rewrite (Preempt_ready dc s w sc t rest) by done.
    set (w1 := set_scheds _ w).
    assert (lockstep w1) as Hl1 by done.
    destruct (SwitchTo_lockstep_aux dc w1 t xt Hl1 Hxt Hsome)
      as (w' & xp & HS & Ha & Hr & Hp & Hf & Hscs & Hsd & Hne & Hl').
    exists w', xp. split_and!; try done.
Qed.

(** C3: whenever [Preempt] completes its switch, the fiber it made active
    is the front of the ready queue, which it removed leaving the rest of
    the queue in order, or, when the ready queue was empty, the dispatcher;
    nothing else in any scheduler changed.  And it does complete: in a world
    where the switch protocol is in step, if that one candidate is resumable
    then [Preempt] switches to it. *)
Theorem Preempt_selects dc s w sc :
  scheds w !! s = Some sc →
  (∀ u w', Preempt dc s w = Ret u w' →
     match ready_queue_ sc with
     | fi :: rest =>
         active w' = fi ∧
         scheds w' = <[s := set_ready_queue_ rest sc]> (scheds w)
     | [] => dispatch_cntx_ sc = Some (active w') ∧ scheds w' = scheds w
     end) ∧
  (lockstep w → ∀ t xt,
     (match ready_queue_ sc with
      | fi :: _ => Some fi
      | [] => dispatch_cntx_ sc
      end) = Some t →
     fibers w !! t = Some xt → is_Some (entry_ xt) →
     ∃ w', Preempt dc s w = Ret tt w' ∧
           active w' = t ∧ running w' = t ∧ lockstep w').
Proof.
  intros Hsc. split.
  - intros u w'. by apply Preempt_Ret_selected.
  - intros Hl t xt Ht Hxt Hsome.
    destruct (Preempt_lockstep dc s w sc t xt Hsc Hl Ht Hxt Hsome)
      as (w' & xp & HP & Ha & Hr & _ & _ & _ & _ & _ & Hl').
    by exists w'.
Qed.

Lemma Preempt_selects_witness :
  scheds (ex_world 0 [2; 3] [] [] []) !! 0
    = Some (ex_sched [2; 3] [] []) ∧
  Preempt true 0 (ex_world 0 [2; 3] [] [] []) = Ret tt (ex_world 2 [3] [] [] []) ∧
  lockstep (ex_world 0 [2; 3] [] [] []) ∧
  (active (ex_world 2 [3] [] [] []) = 2 ∧
   scheds (ex_world 2 [3] [] [] [])
     = <[0 := set_ready_queue_ [3] (ex_sched [2; 3] [] [])]>
         (scheds (ex_world 0 [2; 3] [] [] []))) ∧
  (∃ w', Preempt true 0 (ex_world 0 [2; 3] [] [] []) = Ret tt w' ∧
         active w' = 2 ∧ running w' = 2 ∧ lockstep w').
Proof.
  assert (Preempt true 0 (ex_world 0 [2; 3] [] [] []) = Ret tt (ex_world 2 [3] [] [] []))
    as HP by (vm_compute; reflexivity).
  assert (lockstep (ex_world 0 [2; 3] [] [] [])) as Hl by compute_done.
  destruct (Preempt_selects true 0 (ex_world 0 [2; 3] [] [] [])
              (ex_sched [2; 3] [] []) eq_refl)
    as [HA HB].
  split; [reflexivity|]. split; [exact HP|]. split; [exact Hl|]. split.
  - exact (HA tt (ex_world 2 [3] [] [] []) HP).
  - apply (HB Hl 2 (ex_fiber 0 2 WORKER 5 [])); [reflexivity|reflexivity|].
    simpl. eauto.
Defined.

(** ** Termination: hand-off of the joiners *)

Lemma MarkReady_Ret s f w sc :
  scheds w !! s = Some sc →
  MarkReady s f w = Ret tt (set_scheds (<[s := after_MarkReady [f] sc]> (scheds w)) w).
Proof. intros H. unfold MarkReady. by erewrite supdate_Ret. Qed.

Lemma sched_of_set_wait_queue w F xf q b :
  fibers w !! F = Some xf →
  sched_of (set_fibers (<[F := set_wait_queue_ q xf]> (fibers w)) w) b
    = sched_of w b.
Proof.
  intros HF. unfold sched_of. simpl.
  destruct (decide (b = F)) as [->|Hne].
  - rewrite lookup_insert_eq, HF. done.
  - by rewrite lookup_insert_ne.
Qed.

Lemma after_MarkReady_app cs1 cs2 sc :
  after_MarkReady cs2 (after_MarkReady cs1 sc) = after_MarkReady (cs1 ++ cs2) sc.
Proof. unfold after_MarkReady. simpl. by rewrite app_assoc. Qed.

Lemma after_MarkReady_nil sc : after_MarkReady [] sc = sc.
Proof. unfold after_MarkReady. rewrite app_nil_r. by destruct sc. Qed.

Lemma wake_joiners_spec this wq : ∀ n w xf,
  fibers w !! this = Some xf →
  wait_queue_ xf = wq →
  length wq < n →
  (∀ b, b ∈ wq → ∃ sb, sched_of w b = Some sb ∧ is_Some (scheds w !! sb)) →
  ∃ w',
    wake_joiners n this w = Ret tt w' ∧
    fibers w' = <[this := set_wait_queue_ [] xf]> (fibers w) ∧
    active w' = active w ∧ running w' = running w ∧ sched w' = sched w ∧
    ∀ s, scheds w' !! s = after_MarkReady (joiners_of w s wq) <$> scheds w !! s.
Proof.
  induction wq as [|b rest IH]; intros n w xf Hthis Hwq Hn Hjoin.
  - destruct n as [|n]; [simpl in Hn; lia|]. simpl.
    erewrite bind_Ret; [|by apply deref_Ret]. rewrite Hwq.
    exists w. split_and!; try done.
    + rewrite <- Hwq. symmetry. apply insert_id. rewrite Hthis. by destruct xf.
    + intros s. unfold joiners_of. simpl.
      destruct (scheds w !! s) as [sc|]; [|done]. simpl.
      by rewrite after_MarkReady_nil.
  - destruct n as [|n]; [simpl in Hn; lia|]. simpl in Hn. simpl.
    erewrite bind_Ret; [|by apply deref_Ret]. rewrite Hwq.
    erewrite bind_Ret; [|by apply update_Ret].
    set (w1 := set_fibers _ w).
    destruct (Hjoin b) as (sb & Hsb & [scb Hscb]); [left|].
    assert (sched_of w1 b = Some sb) as Hsb1
      by (unfold w1; by rewrite sched_of_set_wait_queue).
    unfold sched_of in Hsb1.
    destruct (fibers w1 !! b) as [xb|] eqn:Hxb; [|done]. simpl in Hsb1.
    erewrite bind_Ret; [|by eapply scheduler_of_Ret].
    erewrite bind_Ret; [|by apply MarkReady_Ret].
    set (w2 := set_scheds _ w1).
    destruct (IH n w2 (set_wait_queue_ rest xf)) as (w' & Hw' & Hf & Ha & Hr & Hs & Hsc).
    + simpl. by rewrite lookup_insert_eq.
    + done.
    + lia.
    + intros b' Hb'. destruct (Hjoin b') as (sb' & Hsb' & Hscb'); [by right|].
      exists sb'. split.
      * unfold w2, w1, sched_of. simpl. fold (sched_of w b') in Hsb'.
        rewrite <- Hsb'. apply (sched_of_set_wait_queue w this xf rest b' Hthis).
      * simpl. destruct (decide (sb' = sb)) as [->|Hne].
        -- rewrite lookup_insert_eq. eauto.
        -- by rewrite lookup_insert_ne.
    + exists w'. split_and!; try done.
      * rewrite Hf. simpl. by rewrite insert_insert_eq.
      * intros s. rewrite Hsc. simpl.
        assert (joiners_of w2 s rest = joiners_of w s rest) as ->.
        { unfold joiners_of. apply list_filter_iff. intros b'.
          unfold w2, w1. change (sched_of (set_scheds ?v ?w) b') with (sched_of w b').
          by rewrite (sched_of_set_wait_queue w this xf rest b' Hthis). }
        unfold joiners_of at 2. rewrite filter_cons.
        destruct (decide (s = sb)) as [->|Hne].
        -- rewrite lookup_insert_eq, Hscb. simpl.
           rewrite decide_True by done.
           by rewrite after_MarkReady_app.
        -- rewrite lookup_insert_ne by done.
           rewrite decide_False by congruence. done.
Qed.

Lemma ScheduleTermination_Ret cm s f w sc x :
  scheds w !! s = Some sc → fibers w !! f = Some x →
  ScheduleTermination cm s f w =
    Ret tt (set_scheds
              (<[s := after_ScheduleTermination cm (type_ x) f sc]> (scheds w)) w).
Proof.
  intros Hs Hf. unfold ScheduleTermination, after_ScheduleTermination.
  erewrite bind_Ret; [|by apply supdate_Ret].
  erewrite bind_Ret; [|by apply deref_Ret].
  case_bool_decide.
  - erewrite supdate_Ret; [|simpl; apply lookup_insert_eq].
    simpl. by rewrite insert_insert_eq.
  - done.
Qed.

Lemma Terminate_handoff_spec dc cm this w xf s sc :
  active w = this →
  fibers w !! this = Some xf →
  terminated xf = false →
  list_hook_is_linked this w = false →
  scheduler_ xf = Some s →
  scheds w !! s = Some sc →
  (∀ b, b ∈ wait_queue_ xf →
        ∃ sb, sched_of w b = Some sb ∧ is_Some (scheds w !! sb)) →
  ∃ w',
    Terminate_handoff dc cm this w = Ret s w' ∧
    fibers w' = <[this := set_wait_queue_ [] (set_terminated true xf)]> (fibers w) ∧
    active w' = active w ∧ running w' = running w ∧ sched w' = sched w ∧
    ∀ s', scheds w' !! s' =
          after_MarkReady (joiners_of w s' (wait_queue_ xf)) <$>
            (<[s := after_ScheduleTermination cm (type_ xf) this sc]> (scheds w)) !! s'.
Proof.
  intros Ha Hthis Hterm Hlink Hs Hsc Hjoin.
  unfold Terminate_handoff, FiberActive.
  unfold mbind at 1, M_bind, getw.
  erewrite bind_Ret; [|rewrite Ha, bool_decide_eq_true_2 by done; apply DCHECK_true].
  unfold mbind at 1, M_bind, getw.
  erewrite bind_Ret; [|rewrite Hlink; apply DCHECK_true].
  erewrite bind_Ret; [|by apply deref_Ret].
  erewrite bind_Ret; [|rewrite Hterm; apply DCHECK_true].
  erewrite bind_Ret; [|by apply update_Ret].
  set (w1 := set_fibers _ w).
  assert (fibers w1 !! this = Some (set_terminated true xf)) as H1
    by (simpl; apply lookup_insert_eq).
  erewrite bind_Ret; [|by eapply scheduler_of_Ret].
  erewrite bind_Ret; [|by eapply ScheduleTermination_Ret].
  set (w2 := set_scheds _ w1).
  erewrite bind_Ret; [|by apply deref_Ret].
  assert (∀ b, sched_of w2 b = sched_of w b) as Hso.
  { intros b. unfold w2, w1, sched_of. simpl.
    destruct (decide (b = this)) as [->|Hne].
    - by rewrite lookup_insert_eq, Hthis.
    - by rewrite lookup_insert_ne. }
  destruct (wake_joiners_spec this (wait_queue_ xf)
              (S (length (wait_queue_ xf))) w2 (set_terminated true xf))
    as (w' & Hw' & Hf & Ha' & Hr' & Hs' & Hsc'); [done|done|simpl; lia| |].
  { intros b Hb. destruct (Hjoin b Hb) as (sb & Hsb & Hscb).
    exists sb. rewrite Hso. split; [done|]. simpl.
    destruct (decide (sb = s)) as [->|Hne].
    - rewrite lookup_insert_eq. eauto.
    - by rewrite lookup_insert_ne. }
  simpl in Hw'. simpl. erewrite bind_Ret; [|exact Hw'].
  exists w'. split_and!; try done.
  - rewrite Hf. simpl. by rewrite insert_insert_eq.
  - intros s'. rewrite Hsc'. simpl.
    assert (joiners_of w2 s' (wait_queue_ xf) = joiners_of w s' (wait_queue_ xf)) as ->; [|done].
    unfold joiners_of. apply list_filter_iff. intros b. by rewrite Hso.
Qed.

(** ** Properties kept by every operation *)

Section Respects.

Variable R : World → World → Prop.
Hypothesis R_refl : ∀ w, R w w.
Hypothesis R_trans : ∀ w1 w2 w3, R w1 w2 → R w2 w3 → R w1 w3.

Lemma respects_bind {A B} (m : M A) (k : A → M B) :
  respects R m → (∀ a, respects R (k a)) → respects R (m ≫= k).
Proof.
  intros Hm Hk w b w2 (a & w1 & H1 & H2)%bind_Ret_inv.
  eapply R_trans; [by eapply Hm|by eapply Hk].
Qed.

Lemma respects_pure {A} (m : M A) :
  (∀ w a w', m w = Ret a w' → w' = w) → respects R m.
Proof. intros H w a w' Hm. by rewrite (H _ _ _ Hm). Qed.

Lemma respects_ret {A} (a : A) : respects R (mret a).
Proof. apply respects_pure. by intros w b w' [_ ->]%mret_Ret_inv. Qed.

Lemma respects_getw {A} (f : World → A) : respects R (getw f).
Proof. apply respects_pure. by intros w b w' [_ ->]%getw_Ret_inv. Qed.

Lemma respects_deref f : respects R (deref f).
Proof. apply respects_pure. by intros w b w' [-> _]%deref_Ret_inv. Qed.

Lemma respects_sderef s : respects R (sderef s).
Proof. apply respects_pure. by intros w b w' [-> _]%sderef_Ret_inv. Qed.

Lemma respects_scheduler_of f : respects R (scheduler_of f).
Proof. apply respects_pure. by intros w b w' [-> _]%scheduler_of_Ret_inv. Qed.

Lemma respects_CHECK b : respects R (CHECK b).
Proof. apply respects_pure. by intros w u w' [_ ->]%CHECK_Ret_inv. Qed.

Lemma respects_DCHECK dc b : respects R (DCHECK dc b).
Proof. apply respects_pure. by intros w u w' [-> _]%DCHECK_Ret_inv. Qed.

Lemma respects_fatal {A} : respects R (@fatal A).
Proof. by intros w a w'. Qed.

Lemma respects_undefined {A} : respects R (@undefined A).
Proof. by intros w a w'. Qed.

Lemma respects_out_of_fuel {A} : respects R (@out_of_fuel A).
Proof. by intros w a w'. Qed.

End Respects.

(** Reduce [respects R m] to the state-changing primitives of [m]. *)
Ltac respects_step Hrefl Htrans :=
  first
    [ apply (respects_bind _ Htrans); [|intros ?]
    | apply (respects_ret _ Hrefl)
    | apply (respects_getw _ Hrefl)
    | apply (respects_deref _ Hrefl)
    | apply (respects_sderef _ Hrefl)
    | apply (respects_scheduler_of _ Hrefl)
    | apply (respects_CHECK _ Hrefl)
    | apply (respects_DCHECK _ Hrefl)
    | apply respects_fatal
    | apply respects_undefined
    | apply respects_out_of_fuel
    | match goal with
      | |- respects _ (match ?x with _ => _ end) => destruct x
      | |- respects _ (if ?b then _ else _) => destruct b
      end ].

Lemma terminated_kept_refl w : terminated_kept w w.
Proof. intros f x' H. eauto. Qed.

Lemma terminated_kept_trans w1 w2 w3 :
  terminated_kept w1 w2 → terminated_kept w2 w3 → terminated_kept w1 w3.
Proof.
  intros H12 H23 f x3 H3.
  destruct (H23 _ _ H3) as (x2 & H2 & Ht2).
  destruct (H12 _ _ H2) as (x1 & H1 & Ht1). eauto.
Qed.

Lemma terminated_kept_same_fibers w w' :
  fibers w' = fibers w → terminated_kept w w'.
Proof. intros E f x' H. rewrite E in H. eauto. Qed.

Lemma tk_modw g :
  (∀ w, fibers (g w) = fibers w) → respects terminated_kept (modw g).
Proof.
  intros Hg w u w' ->%modw_Ret_inv. by apply terminated_kept_same_fibers.
Qed.

Lemma tk_supdate s g : respects terminated_kept (supdate s g).
Proof.
  intros w u w' (x & _ & ->)%supdate_Ret_inv. by apply terminated_kept_same_fibers.
Qed.

Lemma tk_update f g :
  (∀ x, terminated x = true → terminated (g x) = true) →
  respects terminated_kept (update f g).
Proof.
  intros Hg w u w' (x & Hx & ->)%update_Ret_inv f' x' H'. simpl in H'.
  destruct (decide (f' = f)) as [->|Hne].
  - rewrite lookup_insert_eq in H'. injection H' as <-. eauto.
  - rewrite lookup_insert_ne in H' by done. eauto.
Qed.

Lemma tk_delete f :
  respects terminated_kept (modw (λ w, set_fibers (delete f (fibers w)) w)).
Proof.
  intros w u w' ->%modw_Ret_inv f' x' H'. simpl in H'.
  apply lookup_delete_Some in H' as [_ H']. eauto.
Qed.

Create HintDb tk discriminated.

Ltac tk_tac :=
  repeat first
    [ assumption
    | solve [auto 1 with tk nocore]
    | apply tk_supdate
    | apply tk_update; done
    | apply tk_delete
    | apply tk_modw; done
    | respects_step terminated_kept_refl terminated_kept_trans ].

Lemma tk_SwitchTo dc f : respects terminated_kept (SwitchTo dc f).
Proof. unfold SwitchTo. tk_tac. Qed.
#[local] Hint Resolve tk_SwitchTo : tk.

Lemma tk_Preempt dc s : respects terminated_kept (Preempt dc s).
Proof. unfold Preempt. tk_tac. Qed.
#[local] Hint Resolve tk_Preempt : tk.

Lemma tk_MarkReady s f : respects terminated_kept (MarkReady s f).
Proof. unfold MarkReady. tk_tac. Qed.
#[local] Hint Resolve tk_MarkReady : tk.

Lemma tk_Attach cm s f : respects terminated_kept (Attach cm s f).
Proof. unfold Attach. tk_tac. Qed.
#[local] Hint Resolve tk_Attach : tk.

Lemma tk_ScheduleTermination cm s f :
  respects terminated_kept (ScheduleTermination cm s f).
Proof. unfold ScheduleTermination. tk_tac. Qed.
#[local] Hint Resolve tk_ScheduleTermination : tk.

Lemma tk_release dc f : respects terminated_kept (intrusive_ptr_release dc f).
Proof. unfold intrusive_ptr_release, destroy. tk_tac. Qed.
#[local] Hint Resolve tk_release : tk.

Lemma tk_DestroyTerminated_loop dc n s :
  respects terminated_kept (DestroyTerminated_loop dc n s).
Proof. induction n as [|n IH]; simpl; tk_tac. Qed.
#[local] Hint Resolve tk_DestroyTerminated_loop : tk.

Lemma tk_DestroyTerminated dc s : respects terminated_kept (DestroyTerminated dc s).
Proof. unfold DestroyTerminated. tk_tac. Qed.
#[local] Hint Resolve tk_DestroyTerminated : tk.

Lemma tk_DefaultDispatch dc s : respects terminated_kept (DefaultDispatch dc s).
Proof. unfold DefaultDispatch. tk_tac. Qed.
#[local] Hint Resolve tk_DefaultDispatch : tk.

Lemma tk_WaitUntil dc s tp me : respects terminated_kept (WaitUntil dc s tp me).
Proof. unfold WaitUntil. tk_tac. Qed.
#[local] Hint Resolve tk_WaitUntil : tk.

Lemma tk_ProcessSleep_loop n s now :
  respects terminated_kept (ProcessSleep_loop n s now).
Proof. induction n as [|n IH]; simpl; tk_tac. Qed.
#[local] Hint Resolve tk_ProcessSleep_loop : tk.

Lemma tk_ProcessSleep s now : respects terminated_kept (ProcessSleep s now).
Proof. unfold ProcessSleep. tk_tac. Qed.
#[local] Hint Resolve tk_ProcessSleep : tk.

Lemma tk_wake_joiners n f : respects terminated_kept (wake_joiners n f).
Proof. induction n as [|n IH]; simpl; tk_tac. Qed.
#[local] Hint Resolve tk_wake_joiners : tk.

Lemma tk_Terminate dc cm f : respects terminated_kept (Terminate dc cm f).
Proof. unfold Terminate, Terminate_handoff, FiberActive. tk_tac. Qed.
#[local] Hint Resolve tk_Terminate : tk.

Lemma tk_Start cm f : respects terminated_kept (Start cm f).
Proof. unfold Start. tk_tac. Qed.
#[local] Hint Resolve tk_Start : tk.

Lemma tk_Join dc f : respects terminated_kept (Join dc f).
Proof. unfold Join, FiberActive. tk_tac. Qed.
#[local] Hint Resolve tk_Join : tk.

Lemma tk_Run dc this c : respects terminated_kept (Run dc None this c).
Proof. unfold Run. tk_tac. Qed.
#[local] Hint Resolve tk_Run : tk.

Lemma tk_exec dc cm o : respects terminated_kept (exec dc cm o).
Proof. destruct o; simpl; tk_tac. Qed.
#[local] Hint Resolve tk_exec : tk.

Lemma tk_exec_all dc cm os : respects terminated_kept (exec_all dc cm os).
Proof. induction os as [|o os IH]; simpl; tk_tac. Qed.

(** ** The switch invariant along every operation *)

Lemma lockstep_switch_inv w :
  lockstep w ↔ switch_inv w ∧ is_Some (fibers w !! active w).
Proof. unfold lockstep, switch_inv. tauto. Qed.

Lemma keeps_switch_inv_refl w : keeps_switch_inv w w.
Proof. by intros H. Qed.

Lemma keeps_switch_inv_trans w1 w2 w3 :
  keeps_switch_inv w1 w2 → keeps_switch_inv w2 w3 → keeps_switch_inv w1 w3.
Proof. unfold keeps_switch_inv. tauto. Qed.

Lemma ksi_update f g :
  (∀ x, entry_ (g x) = entry_ x) → respects keeps_switch_inv (update f g).
Proof.
  intros Hg w u w' (x & Hx & ->)%update_Ret_inv [Hr Hall].
  split; [done|]. intros f' y Hy. simpl in Hy. unfold entry_ok. simpl.
  destruct (decide (f' = f)) as [->|Hne].
  - rewrite lookup_insert_eq in Hy. injection Hy as <-. rewrite Hg.
    apply (Hall _ _ Hx).
  - rewrite lookup_insert_ne in Hy by done. apply (Hall _ _ Hy).
Qed.

Lemma ksi_supdate s g : respects keeps_switch_inv (supdate s g).
Proof. by intros w u w' (x & Hx & ->)%supdate_Ret_inv [Hr Hall]. Qed.

Lemma ksi_delete f :
  respects keeps_switch_inv (modw (λ w, set_fibers (delete f (fibers w)) w)).
Proof.
  intros w u w' ->%modw_Ret_inv [Hr Hall]. split; [done|].
  intros f' y Hy. simpl in Hy. apply lookup_delete_Some in Hy as [_ Hy].
  apply (Hall _ _ Hy).
Qed.

Lemma ksi_SwitchTo dc t : respects keeps_switch_inv (SwitchTo dc t).
Proof.
  intros w u w' (me & k & p & Hme & Hk & Hp & ->)%SwitchTo_Ret_inv [Hr Hall].
  pose proof (Hall _ _ Hme) as Hok. unfold entry_ok in Hok. rewrite Hk in Hok.
  destruct Hok as [-> Hne]. simpl in Hp.
  rewrite lookup_insert_ne in Hp by done.
  split; [done|]. intros f x Hf. unfold entry_ok. simpl in *.
  destruct (decide (f = active w)) as [->|Hfa].
  - rewrite lookup_insert_eq in Hf. injection Hf as <-. simpl.
    split; [done|congruence].
  - rewrite lookup_insert_ne in Hf by done.
    destruct (decide (f = t)) as [->|Hft].
    + rewrite lookup_insert_eq in Hf. by injection Hf as <-.
    + rewrite lookup_insert_ne in Hf by done.
      specialize (Hall _ _ Hf). unfold entry_ok in Hall.
      destruct (entry_ x) as [[k]|]; [|done].
      destruct Hall as [Hk' _]. done.
Qed.

Create HintDb ksi discriminated.
#[local] Hint Resolve ksi_SwitchTo : ksi.

Ltac ksi_tac :=
  repeat first
    [ assumption
    | solve [auto 1 with ksi nocore]
    | apply ksi_supdate
    | apply ksi_update; done
    | apply ksi_delete
    | respects_step keeps_switch_inv_refl keeps_switch_inv_trans ].

Lemma ksi_Preempt dc s : respects keeps_switch_inv (Preempt dc s).
Proof. unfold Preempt. ksi_tac. Qed.
#[local] Hint Resolve ksi_Preempt : ksi.

Lemma ksi_release dc f : respects keeps_switch_inv (intrusive_ptr_release dc f).
Proof. unfold intrusive_ptr_release, destroy. ksi_tac. Qed.
#[local] Hint Resolve ksi_release : ksi.

Lemma ksi_DestroyTerminated_loop dc n s :
  respects keeps_switch_inv (DestroyTerminated_loop dc n s).
Proof. induction n as [|n IH]; simpl; ksi_tac. Qed.
#[local] Hint Resolve ksi_DestroyTerminated_loop : ksi.

Lemma ksi_DefaultDispatch dc s : respects keeps_switch_inv (DefaultDispatch dc s).
Proof. unfold DefaultDispatch, DestroyTerminated. ksi_tac. Qed.
#[local] Hint Resolve ksi_DefaultDispatch : ksi.

Lemma ksi_ProcessSleep_loop n s now :
  respects keeps_switch_inv (ProcessSleep_loop n s now).
Proof. induction n as [|n IH]; simpl; unfold MarkReady; ksi_tac. Qed.
#[local] Hint Resolve ksi_ProcessSleep_loop : ksi.

Lemma ksi_wake_joiners n f : respects keeps_switch_inv (wake_joiners n f).
Proof. induction n as [|n IH]; simpl; unfold MarkReady; ksi_tac. Qed.
#[local] Hint Resolve ksi_wake_joiners : ksi.

Lemma ksi_exec dc cm o : respects keeps_switch_inv (exec dc cm o).
Proof.
  destruct o; simpl;
    unfold Attach, MarkReady, ScheduleTermination, DestroyTerminated,
      WaitUntil, ProcessSleep, Terminate, Terminate_handoff,
      ScheduleTermination, Start, Attach, MarkReady, Join, FiberActive, Run;
    ksi_tac.
Qed.
#[local] Hint Resolve ksi_exec : ksi.

Lemma ksi_exec_all dc cm os : respects keeps_switch_inv (exec_all dc cm os).
Proof. induction os as [|o os IH]; simpl; ksi_tac. Qed.

(** C9: [SwitchTo] on a resumable target, called while fiber [active w] runs,
    makes the target the active fiber and the running stack together, empties
    the target's [entry_] and stores in the previous fiber's [entry_] the
    continuation of the previous fiber's own stack; no other fiber and no
    scheduler changes, and the agreement [lockstep] between the active
    pointer, the running stack and the continuation slots (exactly the
    active fiber has an empty slot) holds again after the switch.  The
    agreement then holds after every sequence of operations of the file: the
    active pointer names the running stack and a fiber with an empty slot is
    the active one. *)
Theorem SwitchTo_lockstep dc w target xt :
  lockstep w →
  fibers w !! target = Some xt → is_Some (entry_ xt) →
  ∃ w' xp,
    SwitchTo dc target w = Ret tt w' ∧
    active w' = target ∧ running w' = target ∧
    fibers w !! active w = Some xp ∧
    fibers w' !! active w = Some (set_entry_ (Some (Ctx (active w))) xp) ∧
    fibers w' !! target = Some (set_entry_ None xt) ∧
    (∀ f, f ≠ active w → f ≠ target → fibers w' !! f = fibers w !! f) ∧
    (∀ f x', fibers w' !! f = Some x' → (entry_ x' = None ↔ f = target)) ∧
    scheds w' = scheds w ∧ sched w' = sched w ∧
    lockstep w' ∧
    (∀ cm os u w2, exec_all dc cm os w' = Ret u w2 →
       running w2 = active w2 ∧
       ∀ f x2, fibers w2 !! f = Some x2 → entry_ x2 = None → f = active w2).
Proof.
  intros Hl Hxt Hsome.
  destruct (SwitchTo_lockstep_aux dc _ _ _ Hl Hxt Hsome)
    as (w' & xp & HS & Ha & Hr & Hp & Hf & Hsc & Hs & Hne & Hl').
  exists w', xp. rewrite Hf. split_and!; try done.
  - by rewrite lookup_insert_eq.
  - rewrite lookup_insert_ne by done. by rewrite lookup_insert_eq.
  - intros f Hfa Hft. by rewrite !lookup_insert_ne.
  - rewrite <- Hf, <- Ha. intros f x' Hx'. by apply lockstep_running_iff.
  - intros cm os u w2 Hos.
    destruct (ksi_exec_all dc cm os _ _ _ Hos) as [Hr2 Hall2].
    { by apply lockstep_switch_inv in Hl' as [? _]. }
    split; [done|]. intros f x2 Hx2 He. specialize (Hall2 _ _ Hx2).
    unfold entry_ok in Hall2. by rewrite He in Hall2.
Qed.

Lemma SwitchTo_lockstep_witness :
  lockstep (ex_world 0 [2] [] [] []) ∧
  ∃ w' xp,
    SwitchTo true 2 (ex_world 0 [2] [] [] []) = Ret tt w' ∧
    active w' = 2 ∧ running w' = 2 ∧
    fibers (ex_world 0 [2] [] [] []) !! active (ex_world 0 [2] [] [] []) = Some xp ∧
    fibers w' !! active (ex_world 0 [2] [] [] [])
      = Some (set_entry_ (Some (Ctx (active (ex_world 0 [2] [] [] [])))) xp) ∧
    fibers w' !! 2 = Some (set_entry_ None (ex_fiber 0 2 WORKER 5 [])) ∧
    (∀ f, f ≠ active (ex_world 0 [2] [] [] []) → f ≠ 2 →
          fibers w' !! f = fibers (ex_world 0 [2] [] [] []) !! f) ∧
    (∀ f x', fibers w' !! f = Some x' → (entry_ x' = None ↔ f = 2)) ∧
    scheds w' = scheds (ex_world 0 [2] [] [] []) ∧
    sched w' = sched (ex_world 0 [2] [] [] []) ∧
    lockstep w' ∧
    (∀ cm os u w2, exec_all true cm os w' = Ret u w2 →
       running w2 = active w2 ∧
       ∀ f x2, fibers w2 !! f = Some x2 → entry_ x2 = None → f = active w2).
Proof.
  assert (lockstep (ex_world 0 [2] [] [] [])) as Hl by compute_done.
  split; [exact Hl|].
  apply (SwitchTo_lockstep true (ex_world 0 [2] [] [] []) 2 (ex_fiber 0 2 WORKER 5 [])).
  - exact Hl.
  - reflexivity.
  - simpl. eauto.
Defined.

Lemma lockstep_ext w w' :
  active w' = active w → running w' = running w →
  (∀ f, entry_ <$> fibers w' !! f = entry_ <$> fibers w !! f) →
  lockstep w → lockstep w'.
Proof.
  intros Ha Hr He (Hrun & [p Hp] & Hall). split_and!.
  - congruence.
  - rewrite Ha. specialize (He (active w)). rewrite Hp in He.
    destruct (fibers w' !! active w); [eauto|done].
  - intros f x' Hx'. specialize (He f). rewrite Hx' in He.
    destruct (fibers w !! f) as [x|] eqn:Hx; [|done].
    specialize (Hall _ _ Hx). unfold entry_ok in *.
    injection He as ->. by rewrite Ha.
Qed.

Lemma not_linked_inv f w :
  list_hook_is_linked f w = false →
  (∀ s sc, scheds w !! s = Some sc →
           (f ∉ ready_queue_ sc) ∧ (f ∉ terminate_queue_ sc)) ∧
  (∀ g x, fibers w !! g = Some x → f ∉ wait_queue_ x).
Proof.
  unfold list_hook_is_linked. intros H%bool_decide_eq_false. split.
  - intros s sc Hsc. split; intros Hin; apply H; left; exists s, sc; tauto.
  - intros g x Hx Hin. apply H. right. by exists g, x.
Qed.

Lemma joiners_of_subseteq w s wq b : b ∈ joiners_of w s wq → b ∈ wq.
Proof. unfold joiners_of. by intros [_ ?]%list_elem_of_filter. Qed.

Lemma joiners_of_elem w s wq b :
  b ∈ wq → sched_of w b = Some s → b ∈ joiners_of w s wq.
Proof. unfold joiners_of. intros. by apply list_elem_of_filter. Qed.

(** C5: [Terminate] of the active, not yet terminated, unlinked fiber [F]
    (whose joiners are attached to schedulers) sets [F]'s [terminated] flag
    and empties its joiner list, changing nothing else in [F] or any other
    fiber; appends [F] to the [terminate_queue_] of its scheduler and, when
    [F] is a WORKER, decrements [num_worker_fibers_]; appends to the ready
    queue of every scheduler the joiners of [F] attached to it, so that every
    joiner is in the ready queue of its own scheduler; and then runs
    [Preempt], unconditionally.  With the switch protocol in step, every
    completed [Terminate] leaves another fiber active and [F] in no ready
    queue, and [Terminate] completes when the fiber [Preempt] selects is
    resumable.  No later sequence of operations clears the flag while the
    object exists. *)
Theorem Terminate_spec dc cm F w xf s sc :
  active w = F →
  fibers w !! F = Some xf →
  terminated xf = false →
  list_hook_is_linked F w = false →
  scheduler_ xf = Some s →
  scheds w !! s = Some sc →
  (∀ b, b ∈ wait_queue_ xf →
        ∃ sb, sched_of w b = Some sb ∧ is_Some (scheds w !! sb)) →
  ∃ w1,
    Terminate_handoff dc cm F w = Ret s w1 ∧
    fibers w1 !! F = Some (set_wait_queue_ [] (set_terminated true xf)) ∧
    (∀ f, f ≠ F → fibers w1 !! f = fibers w !! f) ∧
    active w1 = F ∧ running w1 = running w ∧
    (∃ sc1, scheds w1 !! s = Some sc1 ∧
            terminate_queue_ sc1 = terminate_queue_ sc ++ [F] ∧
            sleep_queue_ sc1 = sleep_queue_ sc ∧
            num_worker_fibers_ sc1 =
              if bool_decide (type_ xf = WORKER)
              then ((num_worker_fibers_ sc - 1) mod cm)%Z
              else num_worker_fibers_ sc) ∧
    (∀ s' sc', scheds w !! s' = Some sc' →
       ∃ sc1', scheds w1 !! s' = Some sc1' ∧
               ready_queue_ sc1' =
                 ready_queue_ sc' ++ joiners_of w s' (wait_queue_ xf)) ∧
    (∀ b, b ∈ wait_queue_ xf →
       ∃ sb scb, sched_of w b = Some sb ∧ scheds w1 !! sb = Some scb ∧
                 b ∈ ready_queue_ scb) ∧
    Terminate dc cm F w = Preempt dc s w1 ∧
    (lockstep w → ∀ u w2, Terminate dc cm F w = Ret u w2 →
       active w2 ≠ F ∧
       ∀ s' sc2, scheds w2 !! s' = Some sc2 → F ∉ ready_queue_ sc2) ∧
    (lockstep w → ∀ t xt,
       (match ready_queue_ sc ++ joiners_of w s (wait_queue_ xf) with
        | fi :: _ => Some fi
        | [] => dispatch_cntx_ sc
        end) = Some t →
       fibers w !! t = Some xt → is_Some (entry_ xt) →
       ∃ w2, Terminate dc cm F w = Ret tt w2 ∧
             active w2 = t ∧ running w2 = t ∧ lockstep w2) ∧
    (∀ os u w2 w3 x3,
       Terminate dc cm F w = Ret u w2 →
       exec_all dc cm os w2 = Ret tt w3 →
       fibers w3 !! F = Some x3 → terminated x3 = true).
Proof.
  intros Ha HF Hterm Hlink Hs Hsc Hjoin.
  destruct (Terminate_handoff_spec dc cm F w xf s sc Ha HF Hterm Hlink Hs Hsc Hjoin)
    as (w1 & Hw1 & Hf & Ha1 & Hr1 & Hsd1 & Hscs).
  destruct (not_linked_inv _ _ Hlink) as [Hnq Hnw].
  assert (Terminate dc cm F w = Preempt dc s w1) as HT.
  { unfold Terminate. by erewrite bind_Ret. }
  assert (∀ s' sc', scheds w !! s' = Some sc' →
     ∃ sc1', scheds w1 !! s' = Some sc1' ∧
             ready_queue_ sc1' =
               ready_queue_ sc' ++ joiners_of w s' (wait_queue_ xf)) as Hready.
  { intros s' sc' Hsc'. rewrite Hscs.
    destruct (decide (s' = s)) as [->|Hne].
    - rewrite lookup_insert_eq. simpl. eexists; split; [done|]. simpl.
      assert (sc' = sc) as -> by congruence.
      unfold after_ScheduleTermination. by case_bool_decide.
    - rewrite lookup_insert_ne, Hsc' by done. simpl. eauto. }
  assert (∀ s' sc1, scheds w1 !! s' = Some sc1 → F ∉ ready_queue_ sc1) as HnF.
  { intros s' sc1 Hsc1. rewrite Hscs in Hsc1.
    destruct (<[s:=after_ScheduleTermination cm (type_ xf) F sc]> (scheds w) !! s')
      as [sc'|] eqn:E; [|done].
    injection Hsc1 as <-. simpl. intros [Hin|Hin]%elem_of_app.
    - destruct (decide (s' = s)) as [->|Hne].
      + rewrite lookup_insert_eq in E. injection E as <-.
        destruct (Hnq _ _ Hsc) as [Hn _]. apply Hn.
        unfold after_ScheduleTermination in Hin. by case_bool_decide.
      + rewrite lookup_insert_ne in E by done.
        destruct (Hnq _ _ E) as [Hn _]. by apply Hn.
    - apply joiners_of_subseteq in Hin. by apply (Hnw _ _ HF). }
  assert (lockstep w → lockstep w1) as Hl1.
  { apply lockstep_ext; [congruence|done|]. intros f. rewrite Hf.
    destruct (decide (f = F)) as [->|Hne].
    - by rewrite lookup_insert_eq, HF.
    - by rewrite lookup_insert_ne. }
  exists w1. split_and!; try done.
  - by rewrite Hf, lookup_insert_eq.
  - intros f Hne. by rewrite Hf, lookup_insert_ne.
  - congruence.
  - rewrite Hscs, lookup_insert_eq. simpl. eexists; split; [done|].
    unfold after_ScheduleTermination, wrap_count.
    by case_bool_decide.
  - intros b Hb. destruct (Hjoin b Hb) as (sb & Hsb & [scb Hscb]).
    destruct (Hready _ _ Hscb) as (sc1' & Hsc1' & Hrq).
    exists sb, sc1'. split_and!; try done.
    rewrite Hrq. apply elem_of_app. right. by apply joiners_of_elem.
  - intros Hl u w2 HT2. rewrite HT in HT2.
    pose proof HT2 as (sc1 & Hsc1 & Hsw)%Preempt_Ret_inv.
    assert (active w2 ≠ F) as Hact.
    { destruct (lockstep_active _ (Hl1 Hl)) as (p1 & Hp1 & Hpe).
      rewrite Ha1, Ha in Hp1.
      assert (∀ t w0, fibers w0 = fibers w1 →
                SwitchTo dc t w0 = Ret u w2 → active w2 ≠ F) as Hsw'.
      { intros t w0 Hw0 (me & k & p' & Hme & Hk & _ & ->)%SwitchTo_Ret_inv.
        simpl. intros ->. rewrite Hw0 in Hme. congruence. }
      destruct (ready_queue_ sc1); [destruct Hsw as (d & _ & Hsw)|];
        (eapply Hsw'; [|exact Hsw]; done). }
    split; [done|].
    intros s' sc2 Hsc2.
    pose proof (Preempt_Ret_selected _ _ _ _ _ _ Hsc1 HT2) as Hsel.
    destruct (ready_queue_ sc1) as [|fi rest] eqn:Hrq.
    + destruct Hsel as [_ Hsel]. rewrite Hsel in Hsc2. by eapply HnF.
    + destruct Hsel as [_ Hsel]. rewrite Hsel in Hsc2.
      destruct (decide (s' = s)) as [->|Hne].
      * rewrite lookup_insert_eq in Hsc2. injection Hsc2 as <-. simpl.
        intros Hin. apply (HnF _ _ Hsc1). rewrite Hrq. by right.
      * rewrite lookup_insert_ne in Hsc2 by done. by eapply HnF.
  - intros Hl t xt Ht Hxt Hsome.
    destruct (Hready _ _ Hsc) as (sc1 & Hsc1 & Hrq).
    assert (t ≠ F) as HtF.
    { intros ->. destruct (lockstep_active _ Hl) as (p & Hp & Hpe).
      rewrite Ha in Hp. assert (p = xt) as -> by congruence.
      rewrite Hpe in Hsome. by destruct Hsome. }
    destruct (Preempt_lockstep dc s w1 sc1 t xt) as
      (w2 & xp & HP & Ha2 & Hr2 & _ & _ & _ & _ & _ & Hl2); try done.
    + by apply Hl1.
    + rewrite Hrq.
      destruct (ready_queue_ sc ++ joiners_of w s (wait_queue_ xf)); [|done].
      rewrite <- Ht. rewrite Hscs, lookup_insert_eq in Hsc1.
      injection Hsc1 as <-. simpl.
      unfold after_ScheduleTermination. by case_bool_decide.
    + by rewrite Hf, lookup_insert_ne.
    + exists w2. by rewrite HT.
  - intros os u w2 w3 x3 HT2 Hos H3.
    pose proof (tk_Terminate dc cm F _ _ _ HT2) as H12.
    pose proof (tk_exec_all dc cm os _ _ _ Hos) as H23.
    destruct (H23 _ _ H3) as (x2 & H2 & Ht2).
    apply Ht2.
    destruct (H12 _ _ H2) as (x1 & H1' & Ht1).
    rewrite HT in HT2.
    pose proof (tk_Preempt dc s _ _ _ HT2) as H1p.
    destruct (H1p _ _ H2) as (x1' & H1'' & Ht1').
    apply Ht1'. rewrite Hf, lookup_insert_eq in H1''. by injection H1'' as <-.
Qed.

Lemma Terminate_spec_witness :
  active (ex_world 2 [] [] [] [3; 0]) = 2 ∧
  fibers (ex_world 2 [] [] [] [3; 0]) !! 2 = Some (ex_fiber 2 2 WORKER 5 [3; 0]) ∧
  terminated (ex_fiber 2 2 WORKER 5 [3; 0]) = false ∧
  list_hook_is_linked 2 (ex_world 2 [] [] [] [3; 0]) = false ∧
  lockstep (ex_world 2 [] [] [] [3; 0]) ∧
  ∃ w1 w2,
    Terminate_handoff true (2 ^ 32) 2 (ex_world 2 [] [] [] [3; 0]) = Ret 0 w1 ∧
    fibers w1 !! 2
      = Some (set_wait_queue_ [] (set_terminated true (ex_fiber 2 2 WORKER 5 [3; 0]))) ∧
    (∃ sc1, scheds w1 !! 0 = Some sc1 ∧
            terminate_queue_ sc1 = [2] ∧ num_worker_fibers_ sc1 = 2%Z ∧
            ready_queue_ sc1 = [3; 0]) ∧
    Terminate true (2 ^ 32) 2 (ex_world 2 [] [] [] [3; 0]) = Ret tt w2 ∧
    active w2 = 3 ∧ running w2 = 3 ∧ lockstep w2 ∧
    ∀ os w3 x3, exec_all true (2 ^ 32) os w2 = Ret tt w3 →
                fibers w3 !! 2 = Some x3 → terminated x3 = true.
Proof.
  assert (lockstep (ex_world 2 [] [] [] [3; 0])) as Hl by compute_done.
  assert (list_hook_is_linked 2 (ex_world 2 [] [] [] [3; 0]) = false) as Hlink
    by (vm_compute; reflexivity).
  split_and!; try reflexivity; try done.
  destruct (Terminate_spec true (2 ^ 32) 2 (ex_world 2 [] [] [] [3; 0])
              (ex_fiber 2 2 WORKER 5 [3; 0]) 0 (ex_sched [] [] []))
    as (w1 & Hh & Hf & _ & _ & _ & (sc1 & Hsc1 & Htq & _ & Hn) & Hrq & _ & _ & _
        & Htot & Hkeep); try reflexivity; try done.
  - intros b Hb. exists 0.
    apply elem_of_cons in Hb as [->|Hb]; [split; [reflexivity|eexists; reflexivity]|].
    apply elem_of_cons in Hb as [->|Hb]; [split; [reflexivity|eexists; reflexivity]|].
    by apply elem_of_nil in Hb.
  - destruct (Htot Hl 3 (ex_fiber 2 3 WORKER 20 [])) as (w2 & HT & Ha2 & Hr2 & Hl2);
      [reflexivity|reflexivity|simpl; eauto|].
    destruct (Hrq 0 (ex_sched [] [] []) eq_refl) as (sc1' & Hsc1' & Hrq').
    exists w1, w2. split_and!; try done.
    + exists sc1. split_and!; try done.
      assert (sc1' = sc1) as -> by congruence. exact Hrq'.
    + intros os w3 x3. exact (Hkeep os tt w2 w3 x3 HT).
Defined.

(** ** Join *)







Lemma lockstep_resumable w f x :
  lockstep w → fibers w !! f = Some x → f ≠ active w → is_Some (entry_ x).
Proof.
  intros Hl Hx Hne. destruct (entry_ x) eqn:E; [eauto|].
  by apply (lockstep_running_iff _ _ _ Hl Hx) in E.
Qed.



Lemma linked_false_intro f w :
  (∀ s sc, scheds w !! s = Some sc →
           (f ∉ ready_queue_ sc) ∧ (f ∉ terminate_queue_ sc)) →
  (∀ g x, fibers w !! g = Some x → f ∉ wait_queue_ x) →
  list_hook_is_linked f w = false.
Proof.
  intros Hq Hw. unfold list_hook_is_linked. apply bool_decide_eq_false.
  intros [(s & sc & Hsc & Hin)|(g & x & Hx & Hin)].
  - destruct (Hq _ _ Hsc). tauto.
  - by eapply Hw.
Qed.





Lemma Join_eval dc w F xc xf :
  fibers w !! active w = Some xc →
  fibers w !! F = Some xf →
  Join dc F w =
    if bool_decide (active w ≠ F) then
      if bool_decide (scheduler_ xc = scheduler_ xf) then
        if terminated xf then Ret tt w
        else (update F (set_wait_queue_ (active w :: wait_queue_ xf));;
              s ← scheduler_of F; Preempt dc s) w
      else Fatal
    else Fatal.
Proof.
  intros Hc HF. unfold Join, FiberActive.
  unfold mbind at 1, M_bind, getw.
  case_bool_decide as Hne; [|done].
  unfold mbind at 1, M_bind. simpl.
  erewrite bind_Ret; [|by apply deref_Ret].
  erewrite bind_Ret; [|by apply deref_Ret].
  case_bool_decide as Hsame; [|done].
  unfold mbind at 1, M_bind. simpl.
  by destruct (terminated xf).
Qed.

Lemma Join_terminated dc w F xc xf :
  fibers w !! active w = Some xc →
  fibers w !! F = Some xf →
  active w ≠ F →
  scheduler_ xc = scheduler_ xf →
  terminated xf = true →
  Join dc F w = Ret tt w.
Proof.
  intros Hc HF Hne Hsame Ht. rewrite (Join_eval dc w F xc xf Hc HF).
  by rewrite !bool_decide_eq_true_2, Ht.
Qed.

(** C10: [Join] on a fiber [F] that has already terminated, called by
    another fiber of the same scheduler, returns at once in the world it
    was called in: [F] and its joiner list, every scheduler and its ready
    queue, the active pointer and the running stack are what they were, so
    the caller was not suspended. *)
Theorem Join_terminated_noop dc w F xc xf :
  fibers w !! active w = Some xc →
  fibers w !! F = Some xf →
  active w ≠ F →
  scheduler_ xc = scheduler_ xf →
  terminated xf = true →
  ∃ w', Join dc F w = Ret tt w' ∧
        w' = w ∧
        fibers w' !! F = Some xf ∧
        wait_queue_ <$> fibers w' !! F = Some (wait_queue_ xf) ∧
        scheds w' = scheds w ∧
        active w' = active w ∧ running w' = running w.
Proof.
  intros Hc HF Hne Hsame Ht. exists w.
  rewrite (Join_terminated dc w F xc xf) by done.
  split_and!; try done. by rewrite HF.
Qed.

Lemma Join_terminated_noop_witness :
  let w := set_fibers (<[2 := set_terminated true (ex_fiber 0 2 WORKER 5 [3])]>
                         (fibers (ex_world 0 [4] [2] [] [3]))) (ex_world 0 [4] [2] [] [3]) in
  fibers w !! active w = Some (ex_fiber 0 0 MAIN 0 []) ∧
  fibers w !! 2 = Some (set_terminated true (ex_fiber 0 2 WORKER 5 [3])) ∧
  active w ≠ 2 ∧
  ∃ w', Join true 2 w = Ret tt w' ∧
        w' = w ∧
        fibers w' !! 2 = Some (set_terminated true (ex_fiber 0 2 WORKER 5 [3])) ∧
        wait_queue_ <$> fibers w' !! 2 = Some [3] ∧
        scheds w' = scheds w ∧
        active w' = active w ∧ running w' = running w.
Proof.
  intros w. split_and!; [reflexivity|reflexivity|compute_done|].
  apply (Join_terminated_noop true w 2 (ex_fiber 0 0 MAIN 0 [])
           (set_terminated true (ex_fiber 0 2 WORKER 5 [3])));
    [reflexivity|reflexivity|compute_done|reflexivity|reflexivity].
Defined.

(** ** Waking sleepers *)

Lemma ProcessSleep_due_head_stays s now w sc fi q x :
  scheds w !! s = Some sc →
  sleep_queue_ sc = fi :: q →
  fibers w !! fi = Some x →
  (tp_ x < now)%Z →
  ProcessSleep s now w = Ret tt w.
Proof.
  intros Hsc Hq Hx Hlt. unfold ProcessSleep.
  erewrite bind_Ret; [|by apply sderef_Ret]. rewrite Hq. simpl.
  erewrite bind_Ret; [|by apply sderef_Ret]. rewrite Hq.
  erewrite bind_Ret; [|by apply deref_Ret].
  destruct (tp_ x >=? now)%Z eqn:E; [lia|done].
Qed.

(** C1, the code at the failing inputs.  At time 10 the only sleeper,
    fiber 2 with deadline 5, is left in the sleep set and not marked ready;
    at time 10 the sleepers 3 and 4, with deadlines 20 and 30, are both
    removed from the sleep set and marked ready. *)
Theorem ProcessSleep_comparison_inverted :
  tp_at (ex_world 0 [] [] [2] []) 2 = 5%Z ∧
  ProcessSleep 0 10 (ex_world 0 [] [] [2] []) = Ret tt (ex_world 0 [] [] [2] []) ∧
  tp_at (ex_world 0 [] [] [3; 4] []) 3 = 20%Z ∧
  tp_at (ex_world 0 [] [] [3; 4] []) 4 = 30%Z ∧
  ProcessSleep 0 10 (ex_world 0 [] [] [3; 4] []) = Ret tt (ex_world 0 [3; 4] [] [] []).
Proof. split_and!; vm_compute; reflexivity. Qed.

(** ** The default dispatch *)

Lemma ready_sleep_kept_refl w : ready_sleep_kept w w.
Proof. by split_and!. Qed.

Lemma ready_sleep_kept_trans w1 w2 w3 :
  ready_sleep_kept w1 w2 → ready_sleep_kept w2 w3 → ready_sleep_kept w1 w3.
Proof.
  intros (H1 & Ha1 & Hr1 & Hs1) (H2 & Ha2 & Hr2 & Hs2).
  split_and!; [|congruence..].
  intros s. by rewrite H2, H1.
Qed.

Lemma rsk_update f g : respects ready_sleep_kept (update f g).
Proof. intros w u w' (x & _ & ->)%update_Ret_inv. by split_and!. Qed.

Lemma rsk_delete f :
  respects ready_sleep_kept (modw (λ w, set_fibers (delete f (fibers w)) w)).
Proof. intros w u w' ->%modw_Ret_inv. by split_and!. Qed.

Lemma rsk_supdate s g :
  (∀ sc, ready_queue_ (g sc) = ready_queue_ sc ∧
         sleep_queue_ (g sc) = sleep_queue_ sc) →
  respects ready_sleep_kept (supdate s g).
Proof.
  intros Hg w u w' (x & Hx & ->)%supdate_Ret_inv. split_and!; try done.
  intros s'. simpl. destruct (decide (s' = s)) as [->|Hne].
  - rewrite lookup_insert_eq, Hx. simpl. destruct (Hg x) as [-> ->]. done.
  - by rewrite lookup_insert_ne.
Qed.

Ltac rsk_tac :=
  repeat first
    [ assumption
    | apply rsk_supdate; done
    | apply rsk_update
    | apply rsk_delete
    | respects_step ready_sleep_kept_refl ready_sleep_kept_trans ].

Lemma rsk_release dc f : respects ready_sleep_kept (intrusive_ptr_release dc f).
Proof. unfold intrusive_ptr_release, destroy. rsk_tac. Qed.

Lemma rsk_DestroyTerminated_loop dc n s :
  respects ready_sleep_kept (DestroyTerminated_loop dc n s).
Proof.
  induction n as [|n IH]; simpl; rsk_tac.
Qed.

Lemma rsk_DefaultDispatch dc s : respects ready_sleep_kept (DefaultDispatch dc s).
Proof.
  unfold DefaultDispatch, DestroyTerminated. rsk_tac.
  all: apply rsk_DestroyTerminated_loop.
Qed.

Lemma DestroyTerminated_loop_drains dc s : ∀ n w u w',
  DestroyTerminated_loop dc n s w = Ret u w' →
  terminate_queue_ <$> scheds w' !! s = Some [].
Proof.
  induction n as [|n IH]; intros w u w' H; [done|]. simpl in H.
  apply bind_Ret_inv in H as (sc & w0 & H0 & H).
  apply sderef_Ret_inv in H0 as [-> Hsc].
  destruct (terminate_queue_ sc) as [|tfi rest] eqn:Hq.
  - apply mret_Ret_inv in H as [_ ->]. by rewrite Hsc, <- Hq.
  - apply bind_Ret_inv in H as (? & w1 & _ & H).
    apply bind_Ret_inv in H as (? & w2 & _ & H). by eapply IH.
Qed.

Lemma release_frame dc f w u w' :
  intrusive_ptr_release dc f w = Ret u w' →
  scheds w' = scheds w ∧
  ∃ x, fibers w !! f = Some x ∧
       (fibers w' = <[f := set_use_count_ (wrap32 (use_count_ x - 1)) x]> (fibers w) ∨
        fibers w' = delete f (fibers w)).
Proof.
  unfold intrusive_ptr_release. intros H.
  apply bind_Ret_inv in H as (x & w0 & H0 & H).
  apply deref_Ret_inv in H0 as [-> Hx].
  apply bind_Ret_inv in H as (? & w1 & H1 & H).
  apply update_Ret_inv in H1 as (x' & Hx' & ->).
  assert (x' = x) as -> by congruence.
  case_bool_decide.
  - unfold destroy in H. minv H. simplify_eq/=. split; [done|].
    exists x. split; [done|]. right. by rewrite delete_insert_eq.
  - apply mret_Ret_inv in H as [_ ->]. simpl. eauto.
Qed.

Lemma DCHECK_implied dc b w : (dc = true → b = true) → DCHECK dc b w = Ret tt w.
Proof.
  intros H. destruct dc; [|done]. rewrite H by done. apply DCHECK_true.
Qed.

Lemma release_total dc f w x :
  fibers w !! f = Some x →
  (dc = true →
     wait_queue_ x = [] ∧
     list_hook_is_linked f
       (set_fibers (<[f := set_use_count_ (wrap32 (use_count_ x - 1)) x]> (fibers w)) w)
       = false) →
  ∃ w', intrusive_ptr_release dc f w = Ret tt w'.
Proof.
  intros Hx Hdc. unfold intrusive_ptr_release.
  erewrite bind_Ret; [|by apply deref_Ret].
  erewrite bind_Ret; [|by apply update_Ret].
  case_bool_decide; [|by eexists].
  unfold destroy.
  erewrite bind_Ret; [|apply deref_Ret; simpl; apply lookup_insert_eq].
  erewrite bind_Ret;
    [|apply DCHECK_implied; intros Hd; apply bool_decide_eq_true_2;
      by destruct (Hdc Hd)].
  unfold mbind at 1, M_bind, getw.
  erewrite bind_Ret;
    [|apply DCHECK_implied; intros Hd; destruct (Hdc Hd) as [_ ->]; done].
  by eexists.
Qed.

Lemma pending_ok_step dc s w w' sc rest f x g :
  g ≠ f →
  scheds w !! s = Some sc →
  scheds w' = <[s := set_terminate_queue_ rest sc]> (scheds w) →
  fibers w !! f = Some x →
  (fibers w' = <[f := set_use_count_ (wrap32 (use_count_ x - 1)) x]> (fibers w) ∨
   fibers w' = delete f (fibers w)) →
  pending_ok dc s w g → pending_ok dc s w' g.
Proof.
  intros Hne Hsc Hscs Hx Hfib. unfold pending_ok.
  assert (fibers w' !! g = fibers w !! g) as ->.
  { destruct Hfib as [-> | ->];
      [by rewrite lookup_insert_ne|by rewrite lookup_delete_ne]. }
  destruct (fibers w !! g) as [xg|]; [|done].
  intros H Hdc. destruct (H Hdc) as (Hwq & Hs & Hf). split_and!; [done| |].
  - intros s' sc' Hsc'. rewrite Hscs in Hsc'.
    destruct (decide (s' = s)) as [->|Hs'].
    + rewrite lookup_insert_eq in Hsc'. injection Hsc' as <-. simpl.
      split; [by apply (Hs _ _ Hsc)|done].
    + rewrite lookup_insert_ne in Hsc' by done. by apply Hs.
  - intros f' y Hy. destruct Hfib as [E | E]; rewrite E in Hy.
    + destruct (decide (f' = f)) as [->|Hf'].
      * rewrite lookup_insert_eq in Hy. injection Hy as <-. simpl.
        by apply (Hf _ _ Hx).
      * rewrite lookup_insert_ne in Hy by done. by apply (Hf _ _ Hy).
    + apply lookup_delete_Some in Hy as [_ Hy]. by apply (Hf _ _ Hy).
Qed.

Lemma DestroyTerminated_loop_total dc s : ∀ tq n w sc,
  scheds w !! s = Some sc →
  terminate_queue_ sc = tq →
  length tq < n →
  NoDup tq →
  Forall (pending_ok dc s w) tq →
  ∃ w', DestroyTerminated_loop dc n s w = Ret tt w'.
Proof.
  induction tq as [|f rest IH]; intros n w sc Hsc Hq Hn Hnd Hall;
    (destruct n as [|n]; [simpl in Hn; lia|]); simpl.
  - erewrite bind_Ret; [|by apply sderef_Ret]. rewrite Hq. by eexists.
  - erewrite bind_Ret; [|by apply sderef_Ret]. rewrite Hq.
    erewrite bind_Ret; [|by apply supdate_Ret].
    set (w1 := set_scheds _ w).
    apply NoDup_cons in Hnd as [Hnin Hnd].
    apply Forall_cons in Hall as [Hf Hall].
    pose proof Hf as Hf'. unfold pending_ok in Hf'.
    destruct (fibers w !! f) as [x|] eqn:Hx; [|done].
    destruct (release_total dc f w1 x) as (w2 & Hw2); [done| |].
    { intros Hdc. destruct (Hf' Hdc) as (Hwq & Hs & Hfw). split; [done|].
      apply linked_false_intro.
      - intros s' sc' Hsc'. simpl in Hsc'.
        destruct (decide (s' = s)) as [->|Hs'].
        + rewrite lookup_insert_eq in Hsc'. injection Hsc' as <-. simpl.
          split; [by apply (Hs _ _ Hsc)|done].
        + rewrite lookup_insert_ne in Hsc' by done.
          destruct (Hs _ _ Hsc') as [? Ht]. split; [done|by apply Ht].
      - intros g y Hy. simpl in Hy.
        destruct (decide (g = f)) as [->|Hg].
        + rewrite lookup_insert_eq in Hy. injection Hy as <-. simpl.
          rewrite Hwq. apply not_elem_of_nil.
        + rewrite lookup_insert_ne in Hy by done. by apply (Hfw _ _ Hy). }
    erewrite bind_Ret; [|exact Hw2].
    apply release_frame in Hw2 as (Hscs2 & x' & Hx' & Hfib2).
    assert (x' = x) as -> by (simpl in Hx'; congruence).
    apply (IH n w2 (set_terminate_queue_ rest sc)); try done.
    + rewrite Hscs2. simpl. apply lookup_insert_eq.
    + simpl in Hn. lia.
    + apply Forall_forall. intros g Hg.
      rewrite Forall_forall in Hall.
      apply (pending_ok_step dc s w w2 sc rest f x g); try done.
      * intros ->. done.
      * by apply Hall.
Qed.

Lemma DefaultDispatch_total dc s w sc :
  scheds w !! s = Some sc →
  (dc = true → ready_queue_ sc = []) →
  NoDup (terminate_queue_ sc) →
  Forall (pending_ok dc s w) (terminate_queue_ sc) →
  ∃ w', DefaultDispatch dc s w = Ret tt w'.
Proof.
  intros Hsc Hrq Hnd Hall. unfold DefaultDispatch, DestroyTerminated.
  erewrite bind_Ret; [|by apply sderef_Ret].
  erewrite bind_Ret;
    [|apply DCHECK_implied; intros Hd; apply bool_decide_eq_true_2; by apply Hrq].
  erewrite bind_Ret; [|by apply sderef_Ret].
  eapply DestroyTerminated_loop_total; try done. lia.
Qed.

Lemma DefaultDispatch_drains dc s w u w' :
  DefaultDispatch dc s w = Ret u w' →
  terminate_queue_ <$> scheds w' !! s = Some [].
Proof.
  unfold DefaultDispatch, DestroyTerminated. intros H.
  apply bind_Ret_inv in H as (sc & w0 & _ & H).
  apply bind_Ret_inv in H as (? & w1 & _ & H).
  apply bind_Ret_inv in H as (sc' & w2 & _ & H).
  by eapply DestroyTerminated_loop_drains.
Qed.

Lemma release_Ret_world dc f w u w' :
  intrusive_ptr_release dc f w = Ret u w' →
  w' = set_fibers (release_in f (fibers w)) w.
Proof.
  unfold intrusive_ptr_release. intros H.
  apply bind_Ret_inv in H as (x & w0 & H0 & H).
  apply deref_Ret_inv in H0 as [-> Hx].
  apply bind_Ret_inv in H as (? & w1 & H1 & H).
  apply update_Ret_inv in H1 as (x' & Hx' & ->).
  assert (x' = x) as -> by congruence.
  assert (∀ m', (∀ g, m' !! g = if decide (g = f) then released x
                                else fibers w !! g) →
                m' = release_in f (fibers w)) as Hext.
  { intros m' Hm'. apply map_eq. intros g. rewrite Hm'. unfold release_in.
    destruct (decide (g = f)) as [->|Hne].
    - by rewrite lookup_partial_alter_eq, Hx.
    - by rewrite lookup_partial_alter_ne. }
  unfold released in Hext. case_bool_decide.
  - unfold destroy in H. minv H. simplify_eq/=. unfold set_fibers. simpl.
    f_equal. apply Hext. intros g. destruct (decide (g = f)) as [->|Hne].
    + apply lookup_delete_eq.
    + by rewrite lookup_delete_ne, lookup_insert_ne.
  - apply mret_Ret_inv in H as [_ ->]. unfold set_fibers. simpl.
    f_equal. apply Hext. intros g. destruct (decide (g = f)) as [->|Hne].
    + apply lookup_insert_eq.
    + by rewrite lookup_insert_ne.
Qed.

Lemma DestroyTerminated_loop_world dc s : ∀ n w sc u w',
  scheds w !! s = Some sc →
  DestroyTerminated_loop dc n s w = Ret u w' →
  w' = mkWorld (release_all (terminate_queue_ sc) (fibers w))
         (<[s := set_terminate_queue_ [] sc]> (scheds w))
         (active w) (sched w) (running w).
Proof.
  induction n as [|n IH]; intros w sc u w' Hsc H; [done|]. simpl in H.
  apply bind_Ret_inv in H as (sc' & w0 & H0 & H).
  apply sderef_Ret_inv in H0 as [-> Hsc'].
  assert (sc' = sc) as -> by congruence.
  destruct (terminate_queue_ sc) as [|tfi rest] eqn:Hq.
  - apply mret_Ret_inv in H as [_ ->]. simpl.
    rewrite <- Hq.
    assert (set_terminate_queue_ (terminate_queue_ sc) sc = sc) as ->
      by (by destruct sc).
    rewrite insert_id by done. by destruct w.
  - apply bind_Ret_inv in H as (? & w1 & H1 & H).
    apply supdate_Ret_inv in H1 as (sc1 & Hsc1 & ->).
    assert (sc1 = sc) as -> by congruence.
    apply bind_Ret_inv in H as (? & w2 & H2 & H).
    apply release_Ret_world in H2 as ->.
    rewrite (IH _ (set_terminate_queue_ rest sc) _ _ (lookup_insert_eq _ _ _) H).
    simpl. by rewrite insert_insert_eq.
Qed.

Lemma release_all_notin tq : ∀ m f, f ∉ tq → release_all tq m !! f = m !! f.
Proof.
  induction tq as [|g tq IH]; intros m f Hf; [done|].
  apply not_elem_of_cons in Hf as [Hne Hf].
  unfold release_all in *. simpl. rewrite IH by done.
  unfold release_in. by rewrite lookup_partial_alter_ne.
Qed.

(** C6, as the code has it: the default dispatch, whenever it completes,
    has drained the [terminate_queue_] of its scheduler and has done nothing
    more.  The state it leaves is the state it found with one strong
    reference released for each entry of that queue, in order, and with that
    queue empty: no fiber outside the queue is touched, the scheduler is
    otherwise the same object (same ready queue, sleep set, worker count,
    [shutdown_] flag, main fiber and dispatcher), every other scheduler is
    unchanged, so that no sleeper is marked ready, whatever its deadline, and
    no switch has taken place (the active fiber and the running stack are the
    same).  It is a single pass without a loop, and it completes when the
    ready queue is empty and the pending fibers are distinct objects that
    can be released. *)
Theorem DefaultDispatch_drains_only dc s w :
  (∀ u w', DefaultDispatch dc s w = Ret u w' →
     (∃ sc, scheds w !! s = Some sc ∧
            (dc = true → ready_queue_ sc = []) ∧
            w' = mkWorld (release_all (terminate_queue_ sc) (fibers w))
                   (<[s := set_terminate_queue_ [] sc]> (scheds w))
                   (active w) (sched w) (running w) ∧
            (∀ f, f ∉ terminate_queue_ sc → fibers w' !! f = fibers w !! f) ∧
            (∀ s', s' ≠ s → scheds w' !! s' = scheds w !! s')) ∧
     terminate_queue_ <$> scheds w' !! s = Some [] ∧
     (∀ s', ready_queue_ <$> scheds w' !! s' = ready_queue_ <$> scheds w !! s') ∧
     (∀ s', sleep_queue_ <$> scheds w' !! s' = sleep_queue_ <$> scheds w !! s') ∧
     active w' = active w ∧ running w' = running w) ∧
  (∀ sc, scheds w !! s = Some sc →
     (dc = true → ready_queue_ sc = []) →
     NoDup (terminate_queue_ sc) →
     Forall (pending_ok dc s w) (terminate_queue_ sc) →
     ∃ w', DefaultDispatch dc s w = Ret tt w').
Proof.
  split.
  - intros u w' H.
    destruct (rsk_DefaultDispatch dc s _ _ _ H) as (Hk & Ha & Hr & _).
    split_and!; try done.
    + unfold DefaultDispatch, DestroyTerminated in H.
      apply bind_Ret_inv in H as (sc & w0 & H0 & H).
      apply sderef_Ret_inv in H0 as [-> Hsc].
      apply bind_Ret_inv in H as (? & w0 & H0 & H).
      apply DCHECK_Ret_inv in H0 as [-> Hrq].
      apply bind_Ret_inv in H as (sc' & w0 & H0 & H).
      apply sderef_Ret_inv in H0 as [-> Hsc'].
      apply (DestroyTerminated_loop_world _ _ _ _ sc _ _ Hsc) in H.
      exists sc. split_and!; try done.
      * intros Hdc. specialize (Hrq Hdc).
        by apply bool_decide_eq_true_1 in Hrq.
      * intros f Hf. rewrite H. simpl. by apply release_all_notin.
      * intros s' Hs'. rewrite H. simpl. by rewrite lookup_insert_ne.
    + by eapply DefaultDispatch_drains.
    + intros s'. specialize (Hk s').
      destruct (scheds w' !! s'), (scheds w !! s'); simpl in *; congruence.
    + intros s'. specialize (Hk s').
      destruct (scheds w' !! s'), (scheds w !! s'); simpl in *; congruence.
  - intros sc. apply DefaultDispatch_total.
Qed.

Lemma DefaultDispatch_drains_only_witness :
  scheds (ex_world 1 [] [3; 4] [2] []) !! 0 = Some (ex_sched [] [3; 4] [2]) ∧
  NoDup (terminate_queue_ (ex_sched [] [3; 4] [2])) ∧
  Forall (pending_ok true 0 (ex_world 1 [] [3; 4] [2] []))
    (terminate_queue_ (ex_sched [] [3; 4] [2])) ∧
  ∃ w', DefaultDispatch true 0 (ex_world 1 [] [3; 4] [2] []) = Ret tt w' ∧
        terminate_queue_ <$> scheds w' !! 0 = Some [] ∧
        ready_queue_ <$> scheds w' !! 0 = Some [] ∧
        sleep_queue_ <$> scheds w' !! 0 = Some [2] ∧
        active w' = 1 ∧ running w' = 1 ∧
        scheds w' !! 0 = Some (ex_sched [] [] [2]) ∧
        fibers w' !! 3 = None ∧ fibers w' !! 4 = None ∧
        fibers w' !! 2 = Some (ex_fiber 1 2 WORKER 5 []).
Proof.
  assert (NoDup (terminate_queue_ (ex_sched [] [3; 4] [2]))) as Hnd
    by compute_done.
  assert (Forall (pending_ok true 0 (ex_world 1 [] [3; 4] [2] []))
            (terminate_queue_ (ex_sched [] [3; 4] [2]))) as Hall
    by compute_done.
  destruct (DefaultDispatch_drains_only true 0 (ex_world 1 [] [3; 4] [2] []))
    as [Hpart Htot].
  destruct (Htot (ex_sched [] [3; 4] [2]) eq_refl (λ _, eq_refl) Hnd Hall)
    as (w' & Hw').
  destruct (Hpart tt w' Hw')
    as ((sc & Hsc & _ & Hexact & _ & _) & Ht & Hr & Hs & Ha & Hrun).
  injection Hsc as <-.
  split; [reflexivity|]. split; [exact Hnd|]. split; [exact Hall|].
  exists w'. rewrite Hr, Hs, Ha, Hrun.
  split; [exact Hw'|]. split; [exact Ht|]. rewrite Hexact.
  by split_and!.
Defined.

(** C6, counterexample: fiber 2 sleeps with deadline 5, so its deadline has
    passed at every time from 5 on; the default dispatch releases the
    pending fiber 3 and returns with fiber 2 still in the sleep set, the
    ready queue still empty and the dispatcher still the active fiber. *)
Lemma DefaultDispatch_ignores_sleepers_counterexample :
  tp_at (ex_world 1 [] [3] [2] []) 2 = 5%Z ∧
  ∃ w', DefaultDispatch true 0 (ex_world 1 [] [3] [2] []) = Ret tt w' ∧
        terminate_queue_ <$> scheds w' !! 0 = Some [] ∧
        sleep_queue_ <$> scheds w' !! 0 = Some [2] ∧
        ready_queue_ <$> scheds w' !! 0 = Some [] ∧
        active w' = 1 ∧ running w' = 1.
Proof.
  split; [reflexivity|].
  eexists. split; [vm_compute; reflexivity|].
  split_and!; vm_compute; reflexivity.
Qed.

(** ** The dispatcher body *)

Lemma SwitchTo_is_terminating dc t w u w' :
  SwitchTo dc t w = Ret u w' →
  ∀ f, is_terminating_ <$> fibers w' !! f = is_terminating_ <$> fibers w !! f.
Proof.
  intros (me & k & p & Hme & Hk & Hp & ->)%SwitchTo_Ret_inv f. simpl in *.
  destruct (decide (f = active w)) as [->|Hfa].
  - rewrite lookup_insert_eq. simpl.
    destruct (decide (active w = t)) as [E|E].
    + rewrite E in Hp |- *. rewrite lookup_insert_eq in Hp.
      injection Hp as <-. by rewrite Hme.
    + rewrite lookup_insert_ne in Hp by done. by rewrite Hp.
  - rewrite lookup_insert_ne by done.
    destruct (decide (f = t)) as [->|Hft].
    + by rewrite lookup_insert_eq, Hme.
    + by rewrite lookup_insert_ne.
Qed.

Lemma Run_None_inv dc algo this w r w' :
  Run dc algo this None w = Ret r w' →
  r = SwitchedToMain ∧
  ∃ w1 xd sc,
    match algo with
    | Some a => a (sched w)
    | None => DefaultDispatch dc (sched w)
    end w = Ret tt w1 ∧
    fibers w1 !! this = Some xd ∧
    scheds w1 !! sched w1 = Some sc ∧
    SwitchTo dc (main_cntx_ sc)
      (set_fibers (<[this := set_is_terminating_ true xd]> (fibers w1)) w1)
      = Ret tt w'.
Proof.
  unfold Run. intros H.
  apply bind_Ret_inv in H as (s & w0 & H0 & H).
  apply getw_Ret_inv in H0 as [-> ->].
  apply bind_Ret_inv in H as ([] & w1 & H1 & H).
  apply bind_Ret_inv in H as ([] & w2 & H2 & H).
  apply update_Ret_inv in H2 as (xd & Hxd & ->).
  apply bind_Ret_inv in H as (s' & w3 & H3 & H).
  apply getw_Ret_inv in H3 as [-> ->].
  apply bind_Ret_inv in H as (sc & w4 & H4 & H).
  apply sderef_Ret_inv in H4 as [-> Hsc].
  apply bind_Ret_inv in H as ([] & w5 & H5 & H).
  apply mret_Ret_inv in H as [-> ->].
  split; [done|]. exists w1, xd, sc. done.
Qed.

Lemma Run_None_total dc algo this w w1 sc xd xm :
  match algo with
  | Some a => a (sched w)
  | None => DefaultDispatch dc (sched w)
  end w = Ret tt w1 →
  lockstep w1 →
  fibers w1 !! this = Some xd →
  scheds w1 !! sched w1 = Some sc →
  fibers w1 !! main_cntx_ sc = Some xm →
  main_cntx_ sc ≠ active w1 →
  ∃ w', Run dc algo this None w = Ret SwitchedToMain w' ∧
        active w' = main_cntx_ sc ∧ running w' = main_cntx_ sc ∧
        is_terminating_ <$> fibers w' !! this = Some true ∧
        scheds w' = scheds w1 ∧
        lockstep w'.
Proof.
  intros Hwork Hl Hxd Hsc Hxm Hne. unfold Run.
  unfold mbind at 1, M_bind, getw.
  erewrite bind_Ret; [|exact Hwork].
  erewrite bind_Ret; [|by apply update_Ret].
  set (w2 := set_fibers _ w1).
  unfold mbind at 1, M_bind, getw.
  erewrite bind_Ret; [|by apply sderef_Ret].
  assert (lockstep w2) as Hl2.
  { apply (lockstep_ext w1); [done|done| |done]. intros f. unfold w2. simpl.
    destruct (decide (f = this)) as [->|Hf].
    - by rewrite lookup_insert_eq, Hxd.
    - by rewrite lookup_insert_ne. }
  assert (∃ xm2, fibers w2 !! main_cntx_ sc = Some xm2 ∧ entry_ xm2 = entry_ xm)
    as (xm2 & Hxm2 & Hem).
  { unfold w2. simpl. destruct (decide (main_cntx_ sc = this)) as [E|E].
    - rewrite E, lookup_insert_eq. eexists. split; [done|].
      rewrite E in Hxm. assert (xm = xd) as -> by congruence. done.
    - rewrite lookup_insert_ne by done. eauto. }
  destruct (SwitchTo_lockstep_aux dc w2 (main_cntx_ sc) xm2)
    as (w' & xp & HS & Ha & Hr & _ & _ & Hscs & _ & _ & Hl'); try done.
  { rewrite Hem. exact (lockstep_resumable w1 _ _ Hl Hxm Hne). }
  erewrite bind_Ret; [|exact HS].
  exists w'. split_and!; try done.
  rewrite (SwitchTo_is_terminating _ _ _ _ _ HS). unfold w2. simpl.
  by rewrite lookup_insert_eq.
Qed.

(** C7: entered with a populated continuation the dispatcher body returns
    that continuation at once, the world untouched (no dispatch work, no
    flag, no switch).  Entered with an empty continuation, whenever it
    reaches its switch it has run exactly the installed custom algorithm, or
    the default dispatch when none is installed, then set
    [is_terminating_], and the fiber it made active is the main fiber of
    the thread's scheduler; and it does reach that switch when the dispatch
    work returns and the main fiber is suspended and resumable. *)
Theorem Run_entry_shapes dc algo this w :
  (∀ k, Run dc algo this (Some k) w = Ret (Returned k) w) ∧
  (∀ r w', Run dc algo this None w = Ret r w' →
     r = SwitchedToMain ∧
     ∃ w1 sc,
       match algo with
       | Some a => a (sched w)
       | None => DefaultDispatch dc (sched w)
       end w = Ret tt w1 ∧
       scheds w1 !! sched w1 = Some sc ∧
       active w' = main_cntx_ sc ∧
       is_terminating_ <$> fibers w' !! this = Some true ∧
       scheds w' = scheds w1) ∧
  (∀ w1 sc xd xm,
     match algo with
     | Some a => a (sched w)
     | None => DefaultDispatch dc (sched w)
     end w = Ret tt w1 →
     lockstep w1 →
     fibers w1 !! this = Some xd →
     scheds w1 !! sched w1 = Some sc →
     fibers w1 !! main_cntx_ sc = Some xm →
     main_cntx_ sc ≠ active w1 →
     ∃ w', Run dc algo this None w = Ret SwitchedToMain w' ∧
           active w' = main_cntx_ sc ∧ running w' = main_cntx_ sc ∧
           is_terminating_ <$> fibers w' !! this = Some true ∧
           lockstep w').
Proof.
  split_and!.
  - done.
  - intros r w' (-> & w1 & xd & sc & Hwork & Hxd & Hsc & HS)%Run_None_inv.
    split; [done|]. exists w1, sc.
    pose proof (SwitchTo_is_terminating _ _ _ _ _ HS this) as Hit.
    apply SwitchTo_frame in HS as (Ha & Hscs & _).
    split_and!; try done.
    rewrite Hit. simpl. by rewrite lookup_insert_eq.
  - intros w1 sc xd xm Hwork Hl Hxd Hsc Hxm Hne.
    destruct (Run_None_total dc algo this w w1 sc xd xm)
      as (w' & HR & Ha & Hr & Hit & _ & Hl'); try done.
    by exists w'.
Qed.

Lemma Run_entry_shapes_witness :
  DefaultDispatch true (sched (ex_world 1 [] [] [2] [0])) (ex_world 1 [] [] [2] [0])
    = Ret tt (ex_world 1 [] [] [2] [0]) ∧
  lockstep (ex_world 1 [] [] [2] [0]) ∧
  Run true None 1 (Some (Ctx 0)) (ex_world 1 [] [] [2] [0])
    = Ret (Returned (Ctx 0)) (ex_world 1 [] [] [2] [0]) ∧
  (∃ w', Run true None 1 None (ex_world 1 [] [] [2] [0]) = Ret SwitchedToMain w' ∧
         active w' = 0 ∧ running w' = 0 ∧
         is_terminating_ <$> fibers w' !! 1 = Some true ∧
         lockstep w') ∧
  (∃ w1 sc,
     DefaultDispatch true (sched (ex_world 1 [] [] [2] [0])) (ex_world 1 [] [] [2] [0])
       = Ret tt w1 ∧
     scheds w1 !! sched w1 = Some sc ∧ main_cntx_ sc = 0).
Proof.
  assert (DefaultDispatch true (sched (ex_world 1 [] [] [2] [0]))
            (ex_world 1 [] [] [2] [0]) = Ret tt (ex_world 1 [] [] [2] [0])) as HD
    by (vm_compute; reflexivity).
  assert (lockstep (ex_world 1 [] [] [2] [0])) as Hl by compute_done.
  destruct (Run_entry_shapes true None 1 (ex_world 1 [] [] [2] [0]))
    as (Hpop & Hinv & Htot).
  destruct (Htot (ex_world 1 [] [] [2] [0]) (ex_sched [] [] [2])
              (ex_fiber 1 1 DISPATCH 0 []) (ex_fiber 1 0 MAIN 0 [])
              HD Hl eq_refl eq_refl eq_refl ltac:(compute_done))
    as (w' & HR & Ha & Hr & Hit & Hl').
  destruct (Hinv SwitchedToMain w' HR) as (_ & w1 & sc & Hw1 & Hsc & Ha' & _ & _).
  split; [exact HD|]. split; [exact Hl|]. split; [apply Hpop|]. split.
  - exists w'. by split_and!.
  - exists w1, sc. split_and!; [exact Hw1|exact Hsc|].
    rewrite <- Ha'. exact Ha.
Defined.

(** ** The name buffer *)

Lemma init_name_shape N buf nm :
  0 < N → length buf = N →
  init_name N buf nm =
    take (Nat.min (length nm) (N - 1)) nm
      ++ x00 :: drop (S (Nat.min (length nm) (N - 1))) buf.
Proof.
  intros HN Hbuf. unfold init_name.
  set (len := Nat.min (length nm) (N - 1)).
  assert (len < length buf) as Hlen by (unfold len; lia).
  rewrite (insert_take_drop buf len x00 Hlen).
  destruct len as [|n] eqn:E.
  - by rewrite !take_0.
  - f_equal. rewrite drop_app_length'; [done|].
    rewrite length_take. lia.
Qed.

Lemma c_str_app_NUL pre rest :
  x00 ∉ pre → c_str (pre ++ x00 :: rest) = pre.
Proof.
  induction pre as [|b pre IH]; intros Hnin; simpl; [done|].
  destruct (Byte.eqb b x00) eqn:E.
  - apply Byte.byte_dec_bl in E as ->. exfalso. apply Hnin. left.
  - f_equal. apply IH. intros Hin. apply Hnin. by right.
Qed.

(** C8: for every name [nm] and every prior content of the [sizeof_name]
    bytes of [name_], the constructor leaves in the array the first
    [min (length nm) (sizeof_name - 1)] bytes of [nm] (all of [nm] when it
    fits, its longest fitting prefix otherwise) followed by a NUL, which lies
    inside the array; the bytes behind the NUL are untouched.  Read as a C
    string the array is that prefix, provided [nm] itself has no NUL byte. *)
Theorem FiberInterface_name_truncated N buf type cnt nm :
  0 < N → length buf = N →
  length (name_ (FiberInterface_ctor N buf type cnt nm)) = N ∧
  take (Nat.min (length nm) (N - 1)) (name_ (FiberInterface_ctor N buf type cnt nm))
    = take (N - 1) nm ∧
  name_ (FiberInterface_ctor N buf type cnt nm) !! Nat.min (length nm) (N - 1)
    = Some x00 ∧
  Nat.min (length nm) (N - 1) < N ∧
  (length nm ≤ N - 1 →
     take (length nm) (name_ (FiberInterface_ctor N buf type cnt nm)) = nm) ∧
  drop (S (Nat.min (length nm) (N - 1)))
       (name_ (FiberInterface_ctor N buf type cnt nm))
    = drop (S (Nat.min (length nm) (N - 1))) buf ∧
  (x00 ∉ nm → c_str (name_ (FiberInterface_ctor N buf type cnt nm)) = take (N - 1) nm).
Proof.
  intros HN Hbuf. simpl. rewrite (init_name_shape N buf nm HN Hbuf).
  set (len := Nat.min (length nm) (N - 1)).
  assert (length (take len nm) = len) as Htl
    by (rewrite length_take; unfold len; lia).
  assert (take len nm = take (N - 1) nm) as Htake.
  { unfold len. destruct (decide (length nm ≤ N - 1)) as [Hle|Hgt].
    - rewrite Nat.min_l by done. rewrite !take_ge by lia. done.
    - by rewrite Nat.min_r by lia. }
  split_and!.
  - rewrite length_app, Htl. simpl. rewrite length_drop. unfold len. lia.
  - rewrite take_app_length'; done.
  - rewrite lookup_app_r by lia. by rewrite Htl, Nat.sub_diag.
  - unfold len. lia.
  - intros Hle. assert (len = length nm) as E by (unfold len; lia).
    rewrite <- E at 1. rewrite take_app_length' by done.
    rewrite E. by apply take_ge.
  - change (x00 :: drop (S len) buf) with ([x00] ++ drop (S len) buf).
    rewrite app_assoc. apply drop_app_length'.
    rewrite length_app, Htl. simpl. lia.
  - intros Hnin. rewrite c_str_app_NUL; [done|].
    intros Hin. apply Hnin. by apply (subseteq_take len nm).
Qed.

Lemma FiberInterface_name_truncated_witness :
  0 < 4 ∧
  length [x41; x42; x43; x44] = 4 ∧
  name_ (FiberInterface_ctor 4 [x41; x42; x43; x44] WORKER 0 [x68; x65; x6c; x6c; x6f])
    = [x68; x65; x6c; x00] ∧
  c_str (name_ (FiberInterface_ctor 4 [x41; x42; x43; x44] WORKER 0
                  [x68; x65; x6c; x6c; x6f]))
    = take (4 - 1) [x68; x65; x6c; x6c; x6f] ∧
  name_ (FiberInterface_ctor 4 [x41; x42; x43; x44] WORKER 0 [x68; x65; x6c; x6c; x6f])
    !! Nat.min (length [x68; x65; x6c; x6c; x6f]) (4 - 1) = Some x00.
Proof.
  assert (0 < 4) as H0 by lia.
  destruct (FiberInterface_name_truncated 4 [x41; x42; x43; x44] WORKER 0
              [x68; x65; x6c; x6c; x6f] H0 eq_refl)
    as (_ & _ & Hnul & _ & _ & _ & Hstr).
  split; [exact H0|]. split; [reflexivity|]. split; [reflexivity|].
  split; [|exact Hnul].
  apply Hstr. compute_done.
Defined.

(** ** A blocked joiner stays blocked until its target terminates *)


Lemma hoare_weaken {A} P (m : M A) (Q Q' : A → Prop) :
  hoare P m Q → (∀ a, Q a → Q' a) → hoare P m Q'.
Proof. intros Hm HQ w a w' HP H. destruct (Hm _ _ _ HP H). auto. Qed.

Lemma hoare_read {A} P (m : M A) (Q : A → Prop) :
  (∀ w a w', m w = Ret a w' → w' = w) →
  (∀ w a, P w → m w = Ret a w → Q a) →
  hoare P m Q.
Proof.
  intros Hsame HQ w a w' HP H. pose proof (Hsame _ _ _ H) as ->. eauto.
Qed.







Section Blocked.

Variables C F : nat.
































End Blocked.





(** * Further properties of the scheduler *)

(** ** The switch: when it completes, and what it touches *)

Lemma SwitchTo_proj {A} (proj : FiberInterface → A) dc t w u w' :
  (∀ v x, proj (set_entry_ v x) = proj x) →
  SwitchTo dc t w = Ret u w' →
  ∀ f, proj <$> fibers w' !! f = proj <$> fibers w !! f.
Proof.
  intros Hproj (me & k & p & Hme & Hk & Hp & ->)%SwitchTo_Ret_inv f.
  simpl in *.
  destruct (decide (f = active w)) as [->|Hfa].
  - rewrite lookup_insert_eq. simpl. rewrite Hproj.
    destruct (decide (active w = t)) as [E|E].
    + rewrite E in Hp |- *. rewrite lookup_insert_eq in Hp.
      injection Hp as <-. by rewrite Hme, Hproj.
    + rewrite lookup_insert_ne in Hp by done. by rewrite Hp.
  - rewrite lookup_insert_ne by done.
    destruct (decide (f = t)) as [->|Hft].
    + rewrite lookup_insert_eq, Hme. simpl. by rewrite Hproj.
    + by rewrite lookup_insert_ne.
Qed.

(** [SwitchTo] called by a fiber that is in the store completes exactly
    when the target is in the store with a populated [entry_] and, where
    [DCHECK]s are compiled in, the calling fiber's [entry_] is empty (or the
    caller switches to itself, its slot having just been moved out). *)
Theorem SwitchTo_completes_iff dc t w p :
  fibers w !! active w = Some p →
  (∃ w', SwitchTo dc t w = Ret tt w') ↔
  (∃ me, fibers w !! t = Some me ∧ is_Some (entry_ me)) ∧
  (dc = true → t ≠ active w → entry_ p = None).
Proof.
  intros Hp. split.
  - intros (w' & H). unfold SwitchTo in H.
    apply bind_Ret_inv in H as (prev & w1 & H1 & H).
    apply getw_Ret_inv in H1 as [-> ->].
    apply bind_Ret_inv in H as ([] & w2 & H2 & H).
    apply modw_Ret_inv in H2 as ->.
    apply bind_Ret_inv in H as (me & w3 & H3 & H).
    apply deref_Ret_inv in H3 as [-> Hme]. simpl in Hme.
    destruct (entry_ me) as [[k]|] eqn:Hk; [|done].
    apply bind_Ret_inv in H as ([] & w4 & H4 & H).
    apply update_Ret_inv in H4 as (me' & Hme' & ->).
    apply bind_Ret_inv in H as (c & w5 & H5 & H).
    apply getw_Ret_inv in H5 as [-> ->].
    apply bind_Ret_inv in H as ([] & w6 & H6 & H).
    apply modw_Ret_inv in H6 as ->.
    apply bind_Ret_inv in H as (p' & w7 & H7 & H).
    apply deref_Ret_inv in H7 as [-> Hp']. simpl in Hp'.
    apply bind_Ret_inv in H as ([] & w8 & H8 & H).
    apply DCHECK_Ret_inv in H8 as [-> Hd].
    split; [exists me; rewrite Hk; eauto|].
    intros Hdc Hne. rewrite lookup_insert_ne in Hp' by done.
    assert (p' = p) as -> by congruence.
    specialize (Hd Hdc). by apply bool_decide_eq_true_1 in Hd.
  - intros [(me & Hme & [[k] Hk]) Hd]. unfold SwitchTo.
    unfold mbind at 1, M_bind, getw. unfold mbind at 1, M_bind, modw.
    erewrite bind_Ret; [|by apply deref_Ret]. rewrite Hk.
    erewrite bind_Ret; [|by apply update_Ret].
    unfold mbind at 1, M_bind, getw. unfold mbind at 1, M_bind, modw.
    destruct (decide (t = active w)) as [->|Hne].
    + erewrite bind_Ret; [|apply deref_Ret; simpl; apply lookup_insert_eq].
      erewrite bind_Ret; [|apply DCHECK_true].
      erewrite update_Ret; [|simpl; apply lookup_insert_eq]. eauto.
    + erewrite bind_Ret;
        [|apply deref_Ret; simpl; rewrite lookup_insert_ne by done; exact Hp].
      erewrite bind_Ret;
        [|apply DCHECK_implied; intros Hdc; apply bool_decide_eq_true_2; auto].
      erewrite update_Ret;
        [|simpl; rewrite lookup_insert_ne by done; exact Hp]. eauto.
Qed.

Lemma SwitchTo_completes_iff_witness :
  fibers (ex_world 0 [2] [] [] []) !! active (ex_world 0 [2] [] [] [])
    = Some (ex_fiber 0 0 MAIN 0 []) ∧
  (∃ w', SwitchTo true 2 (ex_world 0 [2] [] [] []) = Ret tt w') ∧
  ¬ (∃ w', SwitchTo true 0 (ex_world 0 [2] [] [] []) = Ret tt w') ∧
  ¬ (∃ w', SwitchTo true 7 (ex_world 0 [2] [] [] []) = Ret tt w').
Proof.
  split; [reflexivity|]. split_and!.
  - apply (SwitchTo_completes_iff true 2 (ex_world 0 [2] [] [] [])
             (ex_fiber 0 0 MAIN 0 []) eq_refl).
    split; [|done]. exists (ex_fiber 0 2 WORKER 5 []). simpl. eauto.
  - intros H.
    apply (SwitchTo_completes_iff true 0 (ex_world 0 [2] [] [] [])
             (ex_fiber 0 0 MAIN 0 []) eq_refl) in H as [(me & Hme & Hs) _].
    injection Hme as <-. simpl in Hs. by destruct Hs.
  - intros H.
    apply (SwitchTo_completes_iff true 7 (ex_world 0 [2] [] [] [])
             (ex_fiber 0 0 MAIN 0 []) eq_refl) in H as [(me & Hme & Hs) _].
    done.
Defined.

(** ** Starting fibers *)

Lemma Attach_Ret cm s f w sc x :
  scheds w !! s = Some sc → fibers w !! f = Some x →
  Attach cm s f w =
    Ret tt (mkWorld (<[f := set_scheduler_ (Some s) x]> (fibers w))
              (<[s := after_Attach cm (type_ x) sc]> (scheds w))
              (active w) (sched w) (running w)).
Proof.
  intros Hs Hf. unfold Attach, after_Attach.
  erewrite bind_Ret; [|by apply update_Ret].
  erewrite bind_Ret; [|apply deref_Ret; simpl; apply lookup_insert_eq].
  simpl. case_bool_decide.
  - by erewrite supdate_Ret.
  - unfold mret, M_ret, set_fibers. simpl. by rewrite (insert_id (scheds w) s sc Hs).
Qed.

Lemma Start_Ret cm f w sc x :
  scheds w !! sched w = Some sc → fibers w !! f = Some x →
  Start cm f w =
    Ret tt (mkWorld (<[f := set_scheduler_ (Some (sched w)) x]> (fibers w))
              (<[sched w := after_MarkReady [f] (after_Attach cm (type_ x) sc)]>
                 (scheds w))
              (active w) (sched w) (running w)).
Proof.
  intros Hs Hf. unfold Start.
  unfold mbind at 1, M_bind, getw.
  erewrite bind_Ret; [|by eapply Attach_Ret].
  erewrite MarkReady_Ret; [|simpl; apply lookup_insert_eq].
  simpl. unfold set_scheds. simpl. by rewrite insert_insert_eq.
Qed.

Lemma wrap_count_add_l cm a b :
  wrap_count cm (wrap_count cm a + b) = wrap_count cm (a + b).
Proof.
  unfold wrap_count. destruct (decide (cm = 0%Z)) as [->|Hcm].
  - by rewrite !Z.mod_0_r.
  - by rewrite Zplus_mod_idemp_l.
Qed.

Lemma workers_among_cons w f fs x :
  fibers w !! f = Some x →
  workers_among w (f :: fs) =
    if bool_decide (type_ x = WORKER) then S (workers_among w fs)
    else workers_among w fs.
Proof.
  intros Hx. unfold workers_among. rewrite filter_cons, Hx. simpl.
  case_bool_decide as Hw.
  - rewrite decide_True by (by f_equal). done.
  - rewrite decide_False; [done|]. intros E. apply Hw. by injection E.
Qed.

Lemma Start_all_spec cm : ∀ fs w sc,
  scheds w !! sched w = Some sc →
  Forall (λ f, is_Some (fibers w !! f)) fs →
  ∃ w',
    Start_all cm fs w = Ret tt w' ∧
    active w' = active w ∧ running w' = running w ∧ sched w' = sched w ∧
    (∀ f, fibers w' !! f =
          (λ x, if bool_decide (f ∈ fs) then set_scheduler_ (Some (sched w)) x
                else x) <$> fibers w !! f) ∧
    (∀ s', s' ≠ sched w → scheds w' !! s' = scheds w !! s') ∧
    ∃ sc', scheds w' !! sched w = Some sc' ∧
           ready_queue_ sc' = ready_queue_ sc ++ fs ∧
           terminate_queue_ sc' = terminate_queue_ sc ∧
           sleep_queue_ sc' = sleep_queue_ sc ∧
           main_cntx_ sc' = main_cntx_ sc ∧
           dispatch_cntx_ sc' = dispatch_cntx_ sc ∧
           num_worker_fibers_ sc' =
             match workers_among w fs with
             | O => num_worker_fibers_ sc
             | S _ => wrap_count cm (num_worker_fibers_ sc
                                     + Z.of_nat (workers_among w fs))
             end.
Proof.
  induction fs as [|f fs IH]; intros w sc Hsc Hall.
  - exists w. simpl. split_and!; try done.
    + intros f. by destruct (fibers w !! f) as [x|].
    + exists sc. rewrite app_nil_r. by split_and!.
  - apply Forall_cons in Hall as [[x Hx] Hall]. simpl.
    erewrite bind_Ret; [|by eapply Start_Ret].
    set (w1 := mkWorld _ _ _ _ _).
    destruct (IH w1 (after_MarkReady [f] (after_Attach cm (type_ x) sc)))
      as (w' & Hw' & Ha & Hr & Hsd & Hfib & Hother & sc' & Hsc' & Hrq & Htq
          & Hsq & Hm & Hd & Hn).
    { simpl. apply lookup_insert_eq. }
    { apply Forall_forall. intros g Hg. rewrite Forall_forall in Hall.
      simpl. destruct (decide (g = f)) as [->|Hne].
      - rewrite lookup_insert_eq. eauto.
      - rewrite lookup_insert_ne by done. by apply Hall. }
    assert (∀ g, type_ <$> fibers w1 !! g = type_ <$> fibers w !! g) as Hty.
    { intros g. simpl. destruct (decide (g = f)) as [->|Hne].
      - by rewrite lookup_insert_eq, Hx.
      - by rewrite lookup_insert_ne. }
    assert (workers_among w1 fs = workers_among w fs) as Hwa.
    { unfold workers_among. f_equal. apply list_filter_iff. intros g.
      by rewrite Hty. }
    exists w'. split_and!; try done.
    + intros g. rewrite Hfib. simpl.
      destruct (decide (g = f)) as [->|Hne].
      * rewrite lookup_insert_eq, Hx. simpl.
        rewrite (bool_decide_eq_true_2 (f ∈ f :: fs)) by left.
        by case_bool_decide.
      * rewrite lookup_insert_ne by done.
        destruct (fibers w !! g) as [y|]; [|done]. simpl. f_equal.
        destruct (decide (g ∈ fs)) as [Hin|Hnin].
        -- rewrite !bool_decide_eq_true_2; [done|by right|done].
        -- rewrite !bool_decide_eq_false_2; [done| |done].
           intros [?|?]%elem_of_cons; done.
    + intros s' Hs'. rewrite Hother by done. simpl.
      by rewrite lookup_insert_ne.
    + exists sc'. split_and!; try done.
      * rewrite Hrq. simpl.
        assert (ready_queue_ (after_Attach cm (type_ x) sc) = ready_queue_ sc)
          as -> by (unfold after_Attach; by case_bool_decide).
        by rewrite <- app_assoc.
      * rewrite Htq. unfold after_Attach. by case_bool_decide.
      * rewrite Hsq. unfold after_Attach. by case_bool_decide.
      * rewrite Hm. unfold after_Attach. by case_bool_decide.
      * rewrite Hd. unfold after_Attach. by case_bool_decide.
      * rewrite Hn, Hwa, (workers_among_cons w f fs x Hx).
        unfold after_Attach. simpl.
        case_bool_decide as Hw; simpl; [|done].
        destruct (workers_among w fs) as [|k]; [done|].
        rewrite wrap_count_add_l. f_equal. lia.
Qed.

(** Fibers are run in the order in which they were started.  [Start] of
    the distinct fibers [fs], none of which is linked in a ready queue, a
    termination queue or a joiner list, one after the other appends them in
    that order behind the fibers already ready, attaches each to the
    thread's scheduler, counts the WORKERs among them and switches to no
    fiber; each fiber is then in the ready queue once.  The next [Preempt]
    switches to the front of the old ready queue followed by [fs], and
    leaves the rest in order. *)
Theorem Start_all_fifo dc cm fs w sc t xt :
  lockstep w →
  scheds w !! sched w = Some sc →
  Forall (λ f, is_Some (fibers w !! f)) fs →
  NoDup fs →
  Forall (λ f, list_hook_is_linked f w = false) fs →
  head (ready_queue_ sc ++ fs) = Some t →
  fibers w !! t = Some xt → is_Some (entry_ xt) →
  ∃ w1 w2 sc1,
    Start_all cm fs w = Ret tt w1 ∧
    active w1 = active w ∧ running w1 = running w ∧
    scheds w1 !! sched w = Some sc1 ∧
    ready_queue_ sc1 = ready_queue_ sc ++ fs ∧
    (NoDup (ready_queue_ sc) → NoDup (ready_queue_ sc1)) ∧
    num_worker_fibers_ sc1 =
      match workers_among w fs with
      | O => num_worker_fibers_ sc
      | S _ => ((num_worker_fibers_ sc + Z.of_nat (workers_among w fs)) mod cm)%Z
      end ∧
    (∀ f, f ∈ fs → sched_of w1 f = Some (sched w)) ∧
    Preempt dc (sched w) w1 = Ret tt w2 ∧
    active w2 = t ∧ running w2 = t ∧
    ready_queue_ <$> scheds w2 !! sched w = Some (tail (ready_queue_ sc ++ fs)) ∧
    lockstep w2.
Proof.
  intros Hl Hsc Hall Hnd Hfree Ht Hxt Hsome.
  destruct (Start_all_spec cm fs w sc Hsc Hall)
    as (w1 & Hw1 & Ha & Hr & Hsd & Hfib & _ & sc1 & Hsc1 & Hrq & _ & _ & _
        & Hd & Hn).
  assert (lockstep w1) as Hl1.
  { apply (lockstep_ext w); [done|done| |done]. intros f. rewrite Hfib.
    destruct (fibers w !! f) as [x|]; [|done]. simpl.
    by case_bool_decide. }
  assert (∃ xt1, fibers w1 !! t = Some xt1 ∧ entry_ xt1 = entry_ xt)
    as (xt1 & Hxt1 & He).
  { rewrite Hfib, Hxt. simpl. eexists. split; [done|]. by case_bool_decide. }
  destruct (Preempt_lockstep dc (sched w) w1 sc1 t xt1)
    as (w2 & xp & HP & Ha2 & Hr2 & _ & _ & _ & Hscs & _ & Hl2); try done.
  { rewrite Hrq. destruct (ready_queue_ sc ++ fs); [done|]. by simpl in Ht. }
  { by rewrite He. }
  exists w1, w2, sc1. split_and!; try done.
  - intros Hrnd. rewrite Hrq. apply NoDup_app. split_and!; [done| |done].
    intros f Hin Hf. rewrite Forall_forall in Hfree.
    destruct (not_linked_inv f w (Hfree f Hf)) as [Hq _].
    by destruct (Hq _ _ Hsc).
  - intros f Hf. unfold sched_of. rewrite Hfib.
    rewrite Forall_forall in Hall. destruct (Hall f Hf) as [x ->]. simpl.
    by rewrite bool_decide_eq_true_2.
  - rewrite Hscs, lookup_insert_eq. simpl. by rewrite Hrq.
Qed.

Lemma Start_all_fifo_witness :
  lockstep (ex_world 0 [2] [] [] []) ∧
  NoDup [3; 4] ∧
  Forall (λ f, list_hook_is_linked f (ex_world 0 [2] [] [] []) = false) [3; 4] ∧
  ∃ w1 w2 sc1,
    Start_all (2 ^ 32) [3; 4] (ex_world 0 [2] [] [] []) = Ret tt w1 ∧
    active w1 = 0 ∧
    scheds w1 !! 0 = Some sc1 ∧
    ready_queue_ sc1 = [2; 3; 4] ∧
    NoDup (ready_queue_ sc1) ∧
    num_worker_fibers_ sc1 = 5%Z ∧
    Preempt true 0 w1 = Ret tt w2 ∧
    active w2 = 2 ∧
    ready_queue_ <$> scheds w2 !! 0 = Some [3; 4] ∧
    lockstep w2.
Proof.
  assert (lockstep (ex_world 0 [2] [] [] [])) as Hl by compute_done.
  assert (NoDup [3; 4]) as Hnd by compute_done.
  assert (Forall (λ f, list_hook_is_linked f (ex_world 0 [2] [] [] []) = false)
            [3; 4]) as Hfree by (repeat constructor).
  split; [exact Hl|]. split; [exact Hnd|]. split; [exact Hfree|].
  destruct (Start_all_fifo true (2 ^ 32) [3; 4] (ex_world 0 [2] [] [] [])
              (ex_sched [2] [] []) 2 (ex_fiber 0 2 WORKER 5 []) Hl eq_refl)
    as (w1 & w2 & sc1 & H1 & Ha1 & _ & Hsc1 & Hrq & Hrnd & Hn & _ & HP & Ha2 & _
        & Hrq2 & Hl2); try done.
  - apply Forall_cons. split; [by eexists|].
    apply Forall_cons. split; [by eexists|]. constructor.
  - exists w1, w2, sc1. split_and!; try done.
    apply Hrnd. simpl. compute_done.
Defined.



(** ** The sleep set *)

Lemma sleep_insert_shape key f q :
  ∃ q1 q2,
    q = q1 ++ q2 ∧
    sleep_insert key f q = q1 ++ f :: q2 ∧
    Forall (λ g, (key g ≤ key f)%Z) q1 ∧
    (∀ g, head q2 = Some g → (key f < key g)%Z).
Proof.
  induction q as [|g q IH]; simpl.
  - exists [], []. by split_and!.
  - destruct (key f <? key g)%Z eqn:E.
    + exists [], (g :: q). split_and!; try done.
      intros g' [= <-]. lia.
    + destruct IH as (q1 & q2 & -> & Hins & Hall & Hhd).
      exists (g :: q1), q2. split_and!; try done.
      * by rewrite Hins.
      * constructor; [lia|done].
Qed.

Lemma StronglySorted_ext {A} (R R' : relation A) l :
  (∀ a b, a ∈ l → b ∈ l → R a b → R' a b) →
  StronglySorted R l → StronglySorted R' l.
Proof.
  induction l as [|x l IH]; intros HR Hs; [constructor|].
  apply StronglySorted_cons in Hs as [Hall Hs].
  apply StronglySorted_cons. split.
  - rewrite Forall_forall in Hall |- *. intros y Hy.
    apply HR; [left|by right|by apply Hall].
  - apply IH; [|done]. intros a b Ha Hb. apply HR; by right.
Qed.

Lemma Preempt_proj {A} (proj : FiberInterface → A) dc s w u w' :
  (∀ v x, proj (set_entry_ v x) = proj x) →
  Preempt dc s w = Ret u w' →
  ∀ f, proj <$> fibers w' !! f = proj <$> fibers w !! f.
Proof.
  intros Hproj (sc & Hsc & H)%Preempt_Ret_inv f.
  destruct (ready_queue_ sc) as [|fi rest].
  - destruct H as (d & _ & H). by rewrite (SwitchTo_proj proj _ _ _ _ _ Hproj H).
  - by rewrite (SwitchTo_proj proj _ _ _ _ _ Hproj H).
Qed.

Lemma Preempt_sleep_queue dc s w u w' s' :
  Preempt dc s w = Ret u w' →
  sleep_queue_ <$> scheds w' !! s' = sleep_queue_ <$> scheds w !! s'.
Proof.
  intros H. pose proof H as (sc & Hsc & _)%Preempt_Ret_inv.
  pose proof (Preempt_Ret_selected _ _ _ _ _ _ Hsc H) as Hsel.
  destruct (ready_queue_ sc) as [|fi rest]; destruct Hsel as [_ ->]; [done|].
  destruct (decide (s' = s)) as [->|Hne].
  - by rewrite lookup_insert_eq, Hsc.
  - by rewrite lookup_insert_ne.
Qed.

Lemma tp_at_proj w w' :
  (∀ f, tp_ <$> fibers w' !! f = tp_ <$> fibers w !! f) →
  ∀ f, tp_at w' f = tp_at w f.
Proof.
  intros H f. unfold tp_at. specialize (H f).
  destruct (fibers w' !! f), (fibers w !! f); simpl in *; congruence.
Qed.

Lemma WaitUntil_Ret_inv dc s tp me w u w' :
  WaitUntil dc s tp me w = Ret u w' →
  ∃ x sc,
    fibers w !! me = Some x ∧ scheds w !! s = Some sc ∧
    (dc = true → sleep_hook_is_linked me w = false) ∧
    Preempt dc s
      (mkWorld (<[me := set_tp_ tp x]> (fibers w))
         (<[s := set_sleep_queue_
                   (sleep_insert
                      (tp_at (set_fibers (<[me := set_tp_ tp x]> (fibers w)) w))
                      me (sleep_queue_ sc)) sc]> (scheds w))
         (active w) (sched w) (running w)) = Ret u w'.
Proof.
  unfold WaitUntil. intros H.
  apply bind_Ret_inv in H as (l & w1 & H1 & H).
  apply getw_Ret_inv in H1 as [-> ->].
  apply bind_Ret_inv in H as ([] & w2 & H2 & H).
  apply DCHECK_Ret_inv in H2 as [-> Hd].
  apply bind_Ret_inv in H as ([] & w3 & H3 & H).
  apply update_Ret_inv in H3 as (x & Hx & ->).
  apply bind_Ret_inv in H as (w0 & w4 & H4 & H).
  apply getw_Ret_inv in H4 as [-> ->].
  apply bind_Ret_inv in H as ([] & w5 & H5 & H).
  apply supdate_Ret_inv in H5 as (sc & Hsc & ->).
  exists x, sc. split_and!; try done.
  intros Hdc. specialize (Hd Hdc). by destruct (sleep_hook_is_linked me w).
Qed.

Lemma WaitUntil_sorted_insert dc s tp me w sc u w' :
  scheds w !! s = Some sc →
  me ∉ sleep_queue_ sc →
  sleep_sorted w (sleep_queue_ sc) →
  WaitUntil dc s tp me w = Ret u w' →
  ∃ q1 q2,
    sleep_queue_ sc = q1 ++ q2 ∧
    sleep_queue_ <$> scheds w' !! s = Some (q1 ++ me :: q2) ∧
    tp_at w' me = tp ∧
    (∀ g, g ≠ me → tp_at w' g = tp_at w g) ∧
    Forall (λ g, (tp_at w' g ≤ tp)%Z) q1 ∧
    Forall (λ g, (tp < tp_at w' g)%Z) q2 ∧
    sleep_sorted w' (q1 ++ me :: q2).
Proof.
  intros Hsc Hnin Hsorted (x & sc0 & Hx & Hsc0 & _ & HP)%WaitUntil_Ret_inv.
  assert (sc0 = sc) as -> by congruence.
  set (w1 := set_fibers (<[me := set_tp_ tp x]> (fibers w)) w) in HP.
  assert (tp_at w1 me = tp) as Hme.
  { unfold tp_at, w1. simpl. by rewrite lookup_insert_eq. }
  assert (∀ g, g ≠ me → tp_at w1 g = tp_at w g) as Hother.
  { intros g Hg. unfold tp_at, w1. simpl. by rewrite lookup_insert_ne. }
  assert (∀ g, tp_at w' g = tp_at w1 g) as Htp.
  { apply tp_at_proj. intros f.
    by rewrite (Preempt_proj tp_ _ _ _ _ _ ltac:(done) HP). }
  destruct (sleep_insert_shape (tp_at w1) me (sleep_queue_ sc))
    as (q1 & q2 & Hq & Hins & Hq1 & Hq2).
  assert ((me ∉ q1) ∧ (me ∉ q2)) as [Hn1 Hn2].
  { rewrite Hq in Hnin. split; intros Hin; apply Hnin, elem_of_app; auto. }
  assert (StronglySorted (λ a b, (tp_at w1 a ≤ tp_at w1 b)%Z) (q1 ++ q2)) as Hs1.
  { rewrite <- Hq. unfold sleep_sorted in Hsorted.
    eapply StronglySorted_ext; [|exact Hsorted].
    intros a b Ha Hb Hab.
    rewrite !Hother; [done| |]; intros ->; done. }
  assert (Forall (λ g, (tp < tp_at w1 g)%Z) q2) as Hq2'.
  { destruct q2 as [|g q2]; [done|].
    specialize (Hq2 g eq_refl). rewrite Hme in Hq2.
    apply StronglySorted_app_1_r in Hs1.
    apply StronglySorted_cons in Hs1 as [Hs1 _].
    constructor; [done|]. eapply Forall_impl; [exact Hs1|].
    simpl. intros h Hh. lia. }
  exists q1, q2. split_and!; try done.
  - rewrite (Preempt_sleep_queue _ _ _ _ _ s HP). simpl.
    rewrite lookup_insert_eq. simpl. by rewrite Hins.
  - by rewrite Htp.
  - intros g Hg. by rewrite Htp, Hother.
  - eapply Forall_impl; [exact Hq1|]. simpl. intros g Hg.
    rewrite Htp. by rewrite Hme in Hg.
  - eapply Forall_impl; [exact Hq2'|]. simpl. intros g Hg. by rewrite Htp.
  - unfold sleep_sorted.
    eapply (StronglySorted_ext (λ a b, (tp_at w1 a ≤ tp_at w1 b)%Z)).
    { intros a b _ _. by rewrite !Htp. }
    apply StronglySorted_app_2.
    + intros a b Ha [->|Hb]%elem_of_cons.
      * rewrite Forall_forall in Hq1. by apply Hq1.
      * rewrite Forall_forall in Hq1, Hq2'.
        specialize (Hq1 a Ha). specialize (Hq2' b Hb). lia.
    + by apply StronglySorted_app_1_l in Hs1.
    + apply StronglySorted_cons.
      split; [|by apply StronglySorted_app_1_r in Hs1].
      eapply Forall_impl; [exact Hq2'|]. simpl. intros g Hg. lia.
Qed.

Lemma WaitUntil_total dc s tp me w x sc t xt :
  lockstep w →
  fibers w !! me = Some x →
  scheds w !! s = Some sc →
  (dc = true → sleep_hook_is_linked me w = false) →
  next_fiber sc = Some t →
  fibers w !! t = Some xt → is_Some (entry_ xt) →
  ∃ w', WaitUntil dc s tp me w = Ret tt w' ∧ active w' = t ∧ lockstep w'.
Proof.
  intros Hl Hx Hsc Hd Ht Hxt Hsome. unfold WaitUntil.
  unfold mbind at 1, M_bind, getw.
  erewrite bind_Ret;
    [|apply DCHECK_implied; intros Hdc; by rewrite (Hd Hdc)].
  erewrite bind_Ret; [|by apply update_Ret].
  unfold mbind at 1, M_bind, getw.
  erewrite bind_Ret; [|by apply supdate_Ret].
  set (w2 := set_scheds _ _).
  assert (lockstep w2) as Hl2.
  { apply (lockstep_ext w); [done|done| |done]. intros f. unfold w2. simpl.
    destruct (decide (f = me)) as [->|Hf].
    - by rewrite lookup_insert_eq, Hx.
    - by rewrite lookup_insert_ne. }
  assert (∃ xt2, fibers w2 !! t = Some xt2 ∧ entry_ xt2 = entry_ xt)
    as (xt2 & Hxt2 & He).
  { unfold w2. simpl. destruct (decide (t = me)) as [->|Hf].
    - rewrite lookup_insert_eq. eexists. split; [done|].
      assert (xt = x) as -> by congruence. done.
    - rewrite lookup_insert_ne by done. eauto. }
  destruct (Preempt_lockstep dc s w2
              (set_sleep_queue_
                 (sleep_insert
                    (tp_at (set_fibers (<[me := set_tp_ tp x]> (fibers w)) w))
                    me (sleep_queue_ sc)) sc) t xt2)
    as (w' & xp & HP & Ha & _ & _ & _ & _ & _ & _ & Hl'); try done.
  - unfold w2. simpl. apply lookup_insert_eq.
  - by rewrite He.
  - by exists w'.
Qed.

(** [WaitUntil] keeps the sleep set in order: whenever a call for a fiber
    that is not yet in the sleep set completes, that fiber has the new
    wake-time [tp], no other wake-time has changed, and the sleep set is the
    old one with the fiber inserted behind every entry whose wake-time is at
    most [tp] and in front of every later one, so a sorted sleep set stays
    sorted and keeps the order of the fibers already in it.  The call
    completes, by switching to the fiber [Preempt] selects, when the switch
    protocol is in step and that fiber is resumable. *)
Theorem WaitUntil_keeps_sorted dc s tp me w sc :
  scheds w !! s = Some sc →
  me ∉ sleep_queue_ sc →
  sleep_sorted w (sleep_queue_ sc) →
  (∀ u w', WaitUntil dc s tp me w = Ret u w' →
     ∃ q1 q2,
       sleep_queue_ sc = q1 ++ q2 ∧
       sleep_queue_ <$> scheds w' !! s = Some (q1 ++ me :: q2) ∧
       tp_at w' me = tp ∧
       (∀ g, g ≠ me → tp_at w' g = tp_at w g) ∧
       Forall (λ g, (tp_at w' g ≤ tp)%Z) q1 ∧
       Forall (λ g, (tp < tp_at w' g)%Z) q2 ∧
       sleep_sorted w' (q1 ++ me :: q2)) ∧
  (lockstep w → ∀ x t xt,
     fibers w !! me = Some x →
     (dc = true → sleep_hook_is_linked me w = false) →
     next_fiber sc = Some t →
     fibers w !! t = Some xt → is_Some (entry_ xt) →
     ∃ w', WaitUntil dc s tp me w = Ret tt w' ∧ active w' = t ∧ lockstep w').
Proof.
  intros Hsc Hnin Hsorted. split.
  - intros u w'. by apply WaitUntil_sorted_insert.
  - intros Hl x t xt Hx Hd Ht Hxt Hsome.
    by apply (WaitUntil_total dc s tp me w x sc t xt).
Qed.

Lemma WaitUntil_keeps_sorted_witness :
  scheds (ex_world 2 [3] [] [0; 4] []) !! 0 = Some (ex_sched [3] [] [0; 4]) ∧
  (2 ∉ sleep_queue_ (ex_sched [3] [] [0; 4])) ∧
  sleep_sorted (ex_world 2 [3] [] [0; 4] []) (sleep_queue_ (ex_sched [3] [] [0; 4])) ∧
  lockstep (ex_world 2 [3] [] [0; 4] []) ∧
  ∃ w', WaitUntil true 0 10 2 (ex_world 2 [3] [] [0; 4] []) = Ret tt w' ∧
        active w' = 3 ∧
        sleep_queue_ <$> scheds w' !! 0 = Some [0; 2; 4] ∧
        tp_at w' 2 = 10%Z ∧
        sleep_sorted w' [0; 2; 4].
Proof.
  assert (2 ∉ sleep_queue_ (ex_sched [3] [] [0; 4])) as Hnin by compute_done.
  assert (sleep_sorted (ex_world 2 [3] [] [0; 4] [])
            (sleep_queue_ (ex_sched [3] [] [0; 4]))) as Hs by compute_done.
  assert (lockstep (ex_world 2 [3] [] [0; 4] [])) as Hl by compute_done.
  destruct (WaitUntil_keeps_sorted true 0 10 2 (ex_world 2 [3] [] [0; 4] [])
              (ex_sched [3] [] [0; 4]) eq_refl Hnin Hs) as [Hpart Htot].
  destruct (Htot Hl (ex_fiber 2 2 WORKER 5 []) 3 (ex_fiber 2 3 WORKER 20 [])
              eq_refl (λ _, eq_refl) eq_refl eq_refl ltac:(simpl; eauto))
    as (w' & HW & Ha & _).
  destruct (Hpart tt w' HW) as (q1 & q2 & Hq & Hsq & Htp & _ & Hq1 & Hq2 & Hsorted).
  assert (sleep_queue_ <$> scheds w' !! 0 = Some [0; 2; 4]) as Hsq'.
  { clear -HW. vm_compute in HW. injection HW as <-. reflexivity. }
  split; [reflexivity|]. split; [exact Hnin|]. split; [exact Hs|].
  split; [exact Hl|].
  exists w'. split_and!; try done.
  rewrite Hsq in Hsq'. injection Hsq' as <-. exact Hsorted.
Defined.

(** ** A switch there and back *)

Lemma set_entry_id x : set_entry_ (entry_ x) x = x.
Proof. by destruct x. Qed.

(** A switch to a suspended fiber [t] followed by a switch back to the
    fiber that made the first one completes and restores the active pointer,
    the running stack, every scheduler and every fiber object other than
    [t]: the slot of the fiber that switched is empty again.  The target is
    suspended again with its other members unchanged; its [entry_] is
    populated with a continuation of its own stack, the one captured inside
    its [SwitchTo], which is a later suspension point than the one it held
    before.  The bookkeeping of switches is in step again. *)
Theorem SwitchTo_round_trip dc w t xt :
  lockstep w →
  fibers w !! t = Some xt → is_Some (entry_ xt) →
  ∃ w' xt',
    (SwitchTo dc t;; SwitchTo dc (active w)) w = Ret tt w' ∧
    active w' = active w ∧ running w' = running w ∧
    scheds w' = scheds w ∧ sched w' = sched w ∧
    (∀ f, f ≠ t → fibers w' !! f = fibers w !! f) ∧
    fibers w' !! t = Some xt' ∧
    set_entry_ None xt' = set_entry_ None xt ∧
    entry_ xt' = Some (Ctx t) ∧
    lockstep w'.
Proof.
  intros Hl Hxt Hsome.
  destruct (lockstep_suspended _ _ _ Hl Hxt Hsome) as [Het Hne].
  destruct (SwitchTo_lockstep_aux dc w t xt Hl Hxt Hsome)
    as (w1 & xp & H1 & Ha1 & Hr1 & Hxp & Hf1 & Hs1 & Hsd1 & _ & Hl1).
  destruct (lockstep_active _ Hl) as (p & Hp & Hpe).
  assert (p = xp) as -> by congruence.
  destruct (SwitchTo_lockstep_aux dc w1 (active w)
              (set_entry_ (Some (Ctx (active w))) xp))
    as (w2 & xt1 & H2 & Ha2 & Hr2 & Hxt1 & Hf2 & Hs2 & Hsd2 & _ & Hl2);
    [done|by rewrite Hf1, lookup_insert_eq|by simpl; eauto|].
  rewrite Ha1, Hf1 in Hxt1.
  rewrite lookup_insert_ne, lookup_insert_eq in Hxt1 by done.
  injection Hxt1 as <-.
  rewrite Ha1, Hf1 in Hf2. simpl in Hf2.
  exists w2, (set_entry_ (Some (Ctx t)) xt).
  split; [erewrite bind_Ret; [exact H2|exact H1]|].
  destruct Hl as (Hrun & _ & _).
  split_and!; try congruence.
  - intros f Hft. rewrite Hf2, lookup_insert_ne by done.
    destruct (decide (f = active w)) as [->|Hfa].
    + rewrite lookup_insert_eq, Hxp. f_equal.
      transitivity (set_entry_ (entry_ xp) xp);
        [by rewrite Hpe|apply set_entry_id].
    + by rewrite !lookup_insert_ne.
  - by rewrite Hf2, lookup_insert_eq.
  - done.
  - done.
Qed.

Lemma SwitchTo_round_trip_witness :
  lockstep (ex_world 2 [3] [] [4] []) ∧
  ∃ w', (SwitchTo true 3;; SwitchTo true (active (ex_world 2 [3] [] [4] [])))
          (ex_world 2 [3] [] [4] []) = Ret tt w' ∧
        active w' = 2 ∧ running w' = 2 ∧
        fibers w' !! 2 = Some (ex_fiber 2 2 WORKER 5 []) ∧
        scheds w' = scheds (ex_world 2 [3] [] [4] []) ∧
        lockstep w'.
Proof.
  assert (lockstep (ex_world 2 [3] [] [4] [])) as Hl by compute_done.
  split; [exact Hl|].
  destruct (SwitchTo_round_trip true (ex_world 2 [3] [] [4] []) 3
              (ex_fiber 2 3 WORKER 20 []) Hl eq_refl)
    as (w' & xt' & HS & Ha & Hr & Hs & _ & Hf & _ & _ & _ & Hl').
  { simpl. eauto. }
  exists w'. split_and!; try done.
  rewrite Hf by done. reflexivity.
Defined.

(** ** The sleep set processed *)








(** ** The termination queue reclaimed *)

Lemma release_Ret_inv dc f w u w' :
  intrusive_ptr_release dc f w = Ret u w' →
  ∃ x, fibers w !! f = Some x ∧
       fibers w' !! f = released x ∧
       (∀ g, g ≠ f → fibers w' !! g = fibers w !! g) ∧
       scheds w' = scheds w ∧ active w' = active w ∧
       running w' = running w ∧ sched w' = sched w.
Proof.
  unfold intrusive_ptr_release, released. intros H.
  apply bind_Ret_inv in H as (x & w0 & H0 & H).
  apply deref_Ret_inv in H0 as [-> Hx].
  apply bind_Ret_inv in H as (? & w1 & H1 & H).
  apply update_Ret_inv in H1 as (x' & Hx' & ->).
  assert (x' = x) as -> by congruence.
  exists x. split; [done|].
  case_bool_decide.
  - unfold destroy in H. minv H. simplify_eq/=. split_and!; try done.
    + apply lookup_delete_eq.
    + intros g Hg. by rewrite lookup_delete_ne, lookup_insert_ne.
  - apply mret_Ret_inv in H as [_ ->]. simpl. split_and!; try done.
    + apply lookup_insert_eq.
    + intros g Hg. by rewrite lookup_insert_ne.
Qed.

Lemma DestroyTerminated_loop_releases dc s : ∀ tq n w sc u w',
  scheds w !! s = Some sc →
  terminate_queue_ sc = tq →
  NoDup tq →
  DestroyTerminated_loop dc n s w = Ret u w' →
  (∀ f, f ∈ tq → fibers w' !! f = fibers w !! f ≫= released) ∧
  (∀ f, f ∉ tq → fibers w' !! f = fibers w !! f) ∧
  scheds w' = <[s := set_terminate_queue_ [] sc]> (scheds w) ∧
  active w' = active w ∧ running w' = running w ∧ sched w' = sched w.
Proof.
  induction tq as [|f rest IH]; intros n w sc u w' Hsc Hq Hnd H;
    (destruct n as [|n]; [done|]); simpl in H;
    apply bind_Ret_inv in H as (sc' & w0 & H0 & H);
    apply sderef_Ret_inv in H0 as [-> Hsc'];
    assert (sc' = sc) as -> by congruence; rewrite Hq in H.
  - apply mret_Ret_inv in H as [_ ->]. split_and!; try done.
    + by intros f Hf%elem_of_nil.
    + rewrite <- Hq. symmetry. apply insert_id. rewrite Hsc. by destruct sc.
  - apply NoDup_cons in Hnd as [Hnin Hnd].
    apply bind_Ret_inv in H as (? & w1 & H1 & H).
    apply supdate_Ret_inv in H1 as (sc1 & Hsc1 & ->).
    assert (sc1 = sc) as -> by congruence.
    apply bind_Ret_inv in H as (? & w2 & H2 & H).
    apply release_Ret_inv in H2
      as (xf & Hx & Hf & Hother & Hs2 & Ha2 & Hr2 & Hd2). simpl in *.
    destruct (IH n w2 (set_terminate_queue_ rest sc) u w')
      as (Hin & Hout & Hs' & Ha' & Hr' & Hd'); try done.
    { by rewrite Hs2, lookup_insert_eq. }
    split_and!; try congruence.
    + intros g [->|Hg]%elem_of_cons.
      * rewrite Hout, Hf, Hx by done. done.
      * rewrite Hin by done. rewrite Hother; [done|].
        intros E. apply Hnin. by rewrite <- E.
    + intros g [Hne Hg]%not_elem_of_cons. by rewrite Hout, Hother.
    + rewrite Hs', Hs2. by rewrite insert_insert_eq.
Qed.

(** [DestroyTerminated] gives up exactly one strong reference of every
    fiber pending in the termination queue: a fiber whose count thereby
    reaches zero is destroyed, and one that is still referenced, by a handle
    of a fiber waiting to join it for instance, stays alive with its count
    one lower.  No other fiber is touched, the termination queue ends empty,
    and the scheduler is otherwise unchanged.  The call completes when the
    pending fibers are releasable. *)
Theorem DestroyTerminated_releases dc s w sc :
  scheds w !! s = Some sc →
  NoDup (terminate_queue_ sc) →
  (∀ u w', DestroyTerminated dc s w = Ret u w' →
     (∀ f, f ∈ terminate_queue_ sc →
           fibers w' !! f = fibers w !! f ≫= released) ∧
     (∀ f, f ∉ terminate_queue_ sc → fibers w' !! f = fibers w !! f) ∧
     scheds w' = <[s := set_terminate_queue_ [] sc]> (scheds w) ∧
     active w' = active w ∧ running w' = running w ∧ sched w' = sched w) ∧
  (Forall (pending_ok dc s w) (terminate_queue_ sc) →
   ∃ w', DestroyTerminated dc s w = Ret tt w').
Proof.
  intros Hsc Hnd. split.
  - intros u w' H. unfold DestroyTerminated in H.
    apply bind_Ret_inv in H as (sc' & w0 & H0 & H).
    apply sderef_Ret_inv in H0 as [-> Hsc'].
    by eapply DestroyTerminated_loop_releases.
  - intros Hall. unfold DestroyTerminated.
    erewrite bind_Ret; [|by apply sderef_Ret].
    eapply DestroyTerminated_loop_total; try done. lia.
Qed.

Lemma DestroyTerminated_releases_witness :
  scheds (ex_world 1 [] [3; 4] [2] []) !! 0 = Some (ex_sched [] [3; 4] [2]) ∧
  NoDup (terminate_queue_ (ex_sched [] [3; 4] [2])) ∧
  Forall (pending_ok true 0 (ex_world 1 [] [3; 4] [2] []))
    (terminate_queue_ (ex_sched [] [3; 4] [2])) ∧
  ∃ w', DestroyTerminated true 0 (ex_world 1 [] [3; 4] [2] []) = Ret tt w' ∧
        fibers w' !! 3 = None ∧ fibers w' !! 4 = None ∧
        fibers w' !! 2 = Some (ex_fiber 1 2 WORKER 5 []) ∧
        scheds w' !! 0 = Some (ex_sched [] [] [2]).
Proof.
  assert (NoDup (terminate_queue_ (ex_sched [] [3; 4] [2]))) as Hnd
    by compute_done.
  assert (Forall (pending_ok true 0 (ex_world 1 [] [3; 4] [2] []))
            (terminate_queue_ (ex_sched [] [3; 4] [2]))) as Hall
    by compute_done.
  split; [reflexivity|]. split; [exact Hnd|]. split; [exact Hall|].
  destruct (DestroyTerminated_releases true 0 (ex_world 1 [] [3; 4] [2] [])
              (ex_sched [] [3; 4] [2]) eq_refl Hnd) as [Hpart Htot].
  destruct (Htot Hall) as [w' HD].
  destruct (Hpart tt w' HD) as (Hin & Hout & Hs & _).
  exists w'. split; [exact HD|]. split_and!.
  - rewrite Hin by compute_done. reflexivity.
  - rewrite Hin by compute_done. reflexivity.
  - rewrite Hout by compute_done. reflexivity.
  - rewrite Hs. reflexivity.
Defined.

(** ** Termination happens once *)

















(** ** The per-thread bootstrap *)

Lemma FiberInitializer_ctor_Ret dc N bufm bufd m s d w :
  FiberInitializer_ctor dc N bufm bufd m s d w =
    Ret tt (mkWorld
              (<[d := set_use_count_ 1 (DispatcherImpl_ctor N bufd d s)]>
                 (<[m := set_scheduler_ (Some s) (MainFiberImpl_ctor N bufm)]>
                    (fibers w)))
              (<[s := mkScheduler m (Some d) [] [] [] 0 false]> (scheds w))
              m s (running w)).
Proof.
  unfold FiberInitializer_ctor, Scheduler_ctor.
  erewrite bind_Ret; [|reflexivity].
  erewrite bind_Ret; [|reflexivity].
  erewrite bind_Ret.
  2:{ erewrite bind_Ret; [|reflexivity].
      erewrite bind_Ret; [|apply deref_Ret; simpl; apply lookup_insert_eq].
      erewrite bind_Ret; [|by apply DCHECK_true].
      erewrite bind_Ret; [|apply update_Ret; simpl; apply lookup_insert_eq].
      unfold MakeDispatcher.
      erewrite bind_Ret; [|erewrite bind_Ret; reflexivity].
      erewrite bind_Ret; [|apply supdate_Ret; simpl; apply lookup_insert_eq].
      unfold intrusive_ptr_add_ref.
      apply update_Ret. simpl. apply lookup_insert_eq. }
  unfold modw. simpl. rewrite !insert_insert_eq. done.
Qed.

Lemma builtin_name N buf type cnt nm :
  length nm < N → length buf = N → x00 ∉ nm →
  c_str (name_ (FiberInterface_ctor N buf type cnt nm)) = nm.
Proof.
  intros Hlen Hbuf Hnul. simpl.
  rewrite init_name_shape by (done || lia).
  rewrite Nat.min_l by lia. rewrite firstn_all.
  by apply c_str_app_NUL.
Qed.

(** The first use of the fiber library on a thread, [FiberInitializer],
    always completes and leaves the thread in a consistent state: the new
    main fiber is the active one, stands for the running stack and is
    attached to the new scheduler with one reference; the scheduler has
    empty queues, no worker and a dispatcher that is suspended, not yet
    terminating and held by one reference; the switch bookkeeping is in
    step, so that the first [Preempt] can enter the dispatcher.  No other
    object changes.  When the [name_] array holds ten bytes or more the two
    fibers read as [main] and [_dispatch]. *)
Theorem FiberInitializer_establishes dc N bufm bufd m s d w :
  fibers w !! m = None →
  m ≠ d →
  running w = m →
  map_Forall (λ f x, entry_ x = Some (Ctx f)) (fibers w) →
  ∃ w' xm xd,
    FiberInitializer_ctor dc N bufm bufd m s d w = Ret tt w' ∧
    lockstep w' ∧ active w' = m ∧ sched w' = s ∧
    scheds w' !! s = Some (mkScheduler m (Some d) [] [] [] 0 false) ∧
    fibers w' !! m = Some xm ∧
    type_ xm = MAIN ∧ use_count_ xm = 1%Z ∧ scheduler_ xm = Some s ∧
    entry_ xm = None ∧
    fibers w' !! d = Some xd ∧
    type_ xd = DISPATCH ∧ use_count_ xd = 1%Z ∧ scheduler_ xd = Some s ∧
    entry_ xd = Some (Ctx d) ∧ is_terminating_ xd = false ∧
    (∀ f, f ≠ m → f ≠ d → fibers w' !! f = fibers w !! f) ∧
    (∀ s', s' ≠ s → scheds w' !! s' = scheds w !! s') ∧
    (10 ≤ N → length bufm = N → length bufd = N →
     c_str (name_ xm) = name_main ∧ c_str (name_ xd) = name_dispatch).
Proof.
  intros Hm Hne Hrun Hall.
  exists (mkWorld
            (<[d := set_use_count_ 1 (DispatcherImpl_ctor N bufd d s)]>
               (<[m := set_scheduler_ (Some s) (MainFiberImpl_ctor N bufm)]>
                  (fibers w)))
            (<[s := mkScheduler m (Some d) [] [] [] 0 false]> (scheds w))
            m s (running w)),
    (set_scheduler_ (Some s) (MainFiberImpl_ctor N bufm)),
    (set_use_count_ 1 (DispatcherImpl_ctor N bufd d s)).
  split; [apply FiberInitializer_ctor_Ret|].
  split.
  { split_and!; simpl.
    - done.
    - rewrite lookup_insert_ne, lookup_insert_eq by done. eauto.
    - intros f x Hf. unfold entry_ok. simpl.
      destruct (decide (f = d)) as [->|Hfd].
      { rewrite lookup_insert_eq in Hf. injection Hf as <-. simpl. done. }
      rewrite lookup_insert_ne in Hf by done.
      destruct (decide (f = m)) as [->|Hfm].
      { rewrite lookup_insert_eq in Hf. by injection Hf as <-. }
      rewrite lookup_insert_ne in Hf by done.
      by rewrite (Hall _ _ Hf). }
  simpl. split; [done|]. split; [done|].
  split; [apply lookup_insert_eq|].
  split; [by rewrite lookup_insert_ne, lookup_insert_eq|].
  do 4 (split; [done|]).
  split; [apply lookup_insert_eq|].
  do 5 (split; [done|]).
  split; [intros f Hfm Hfd; by rewrite !lookup_insert_ne|].
  split; [intros s' Hs'; by rewrite lookup_insert_ne|].
  intros HN Hbm Hbd. split.
  - apply (builtin_name N bufm MAIN 1 name_main);
      [simpl; lia|done|compute_done].
  - apply (builtin_name N bufd DISPATCH 0 name_dispatch);
      [simpl; lia|done|compute_done].
Qed.

Lemma FiberInitializer_establishes_witness :
  fibers (mkWorld ∅ ∅ 0 0 7) !! 7 = None ∧
  ∃ w', FiberInitializer_ctor true 16 (replicate 16 xff) (replicate 16 xff)
          7 0 8 (mkWorld ∅ ∅ 0 0 7) = Ret tt w' ∧
        lockstep w' ∧ active w' = 7 ∧
        next_fiber <$> scheds w' !! 0 = Some (Some 8) ∧
        c_str <$> (name_ <$> fibers w' !! 7) = Some name_main ∧
        c_str <$> (name_ <$> fibers w' !! 8) = Some name_dispatch.
Proof.
  split; [reflexivity|].
  destruct (FiberInitializer_establishes true 16 (replicate 16 xff)
              (replicate 16 xff) 7 0 8 (mkWorld ∅ ∅ 0 0 7))
    as (w' & xm & xd & HF & Hl & Ha & _ & Hs & Hxm & _ & _ & _ & _ & Hxd
        & _ & _ & _ & _ & _ & _ & _ & Hnames);
    [reflexivity|lia|reflexivity|compute_done|].
  destruct Hnames as [Hnm Hnd]; [lia|reflexivity|reflexivity|].
  exists w'. split_and!; try done.
  - by rewrite Hs.
  - by rewrite Hxm, <- Hnm.
  - by rewrite Hxd, <- Hnd.
Defined.

(** ** The shutdown handshake of the scheduler's destructor *)

Lemma pending_ok_ext dc s w w' f :
  (∀ g, wait_queue_ <$> fibers w' !! g = wait_queue_ <$> fibers w !! g) →
  (∀ s', (λ sc, (ready_queue_ sc, terminate_queue_ sc)) <$> scheds w' !! s'
         = (λ sc, (ready_queue_ sc, terminate_queue_ sc)) <$> scheds w !! s') →
  pending_ok dc s w f → pending_ok dc s w' f.
Proof.
  intros Hf Hs. unfold pending_ok.
  pose proof (Hf f) as Hff.
  destruct (fibers w !! f) as [x|] eqn:Hx; [|done].
  destruct (fibers w' !! f) as [x'|] eqn:Hx'; [|done].
  simpl in Hff. injection Hff as Hwq.
  intros H Hdc. destruct (H Hdc) as (Hq & Hss & Hfs). split_and!.
  - congruence.
  - intros s' sc' Hsc'. specialize (Hs s'). rewrite Hsc' in Hs.
    destruct (scheds w !! s') as [sc0|] eqn:Hsc0; [|done].
    simpl in Hs. injection Hs as Hr Ht. rewrite Hr, Ht.
    exact (Hss _ _ Hsc0).
  - intros g y' Hy'. specialize (Hf g). rewrite Hy' in Hf.
    destruct (fibers w !! g) as [y|] eqn:Hy; [|done].
    simpl in Hf. injection Hf as ->. exact (Hfs _ _ Hy).
Qed.

Lemma DefaultDispatch_Ret_frame dc s w sc u w' :
  scheds w !! s = Some sc →
  NoDup (terminate_queue_ sc) →
  DefaultDispatch dc s w = Ret u w' →
  (∀ f, f ∉ terminate_queue_ sc → fibers w' !! f = fibers w !! f) ∧
  scheds w' = <[s := set_terminate_queue_ [] sc]> (scheds w) ∧
  active w' = active w ∧ running w' = running w ∧ sched w' = sched w.
Proof.
  intros Hsc Hnd H. unfold DefaultDispatch, DestroyTerminated in H.
  apply bind_Ret_inv in H as (sc1 & w0 & H0 & H).
  apply sderef_Ret_inv in H0 as [-> _].
  apply bind_Ret_inv in H as (? & w0 & H0 & H).
  apply DCHECK_Ret_inv in H0 as [-> _].
  apply bind_Ret_inv in H as (sc2 & w0 & H0 & H).
  apply sderef_Ret_inv in H0 as [-> Hsc2].
  assert (sc2 = sc) as -> by congruence.
  destruct (DestroyTerminated_loop_releases dc s (terminate_queue_ sc)
              _ _ sc _ _ Hsc eq_refl Hnd H) as (_ & Hout & Hrest).
  by split.
Qed.

(** The destructor of the scheduler, run by the main fiber with an empty
    ready queue, completes its handshake with the dispatcher.  When the
    dispatcher has already said it is terminating nothing is switched; when
    it has not, the destructor enters it, the dispatcher reclaims the
    termination queue, marks itself terminating and switches back, and both
    [CHECK]s of the destructor pass.  Either way the main fiber is active
    again, the bookkeeping of switches is in step, [shutdown_] is set and the
    dispatcher is terminating.  The code does not wait for the workers: with
    a worker count other than zero the destructor aborts on its
    [DCHECK_EQ] in a debug build and carries on in a release build. *)
Theorem Scheduler_dtor_handshake_spec dc s w sc d xd :
  lockstep w →
  sched w = s →
  scheds w !! s = Some sc →
  active w = main_cntx_ sc →
  ready_queue_ sc = [] →
  dispatch_cntx_ sc = Some d →
  d ≠ main_cntx_ sc →
  fibers w !! d = Some xd →
  (is_terminating_ xd = false →
     NoDup (terminate_queue_ sc) ∧
     Forall (pending_ok dc s w) (terminate_queue_ sc) ∧
     (d ∉ terminate_queue_ sc) ∧ (main_cntx_ sc ∉ terminate_queue_ sc)) →
  ∃ w',
    Scheduler_dtor_handshake dc s w = Ret tt w' ∧
    active w' = main_cntx_ sc ∧ running w' = main_cntx_ sc ∧
    lockstep w' ∧
    is_terminating_ <$> fibers w' !! d = Some true ∧
    scheds w' !! s
      = Some (if is_terminating_ xd then set_shutdown_ true sc
              else set_terminate_queue_ [] (set_shutdown_ true sc)) ∧
    Scheduler_dtor_shutdown dc s w
      = if dc && negb (bool_decide (num_worker_fibers_ sc = 0%Z))
        then Fatal else Ret tt w'.
Proof.
  intros Hl Hsd Hsc Hact Hrq Hd Hdm Hxd Hcase.
  set (sc0 := set_shutdown_ true sc).
  set (w0 := set_scheds (<[s := sc0]> (scheds w)) w).
  assert (lockstep w0) as Hl0 by (by apply lockstep_set_scheds).
  assert (scheds w0 !! s = Some sc0) as Hsc0
    by (unfold w0; simpl; apply lookup_insert_eq).
  (* the part of the destructor up to its switch *)
  assert (∀ B (k : bool → M B),
            (Scheduler_dtor_enter dc s ≫= k) w =
            if is_terminating_ xd then k false w0
            else (SwitchTo dc d ≫= λ _, k true) w0) as Henter.
  { intros B k. unfold Scheduler_dtor_enter.
    unfold mbind at 1, M_bind.
    erewrite bind_Ret; [|by apply supdate_Ret].
    fold w0.
    erewrite bind_Ret; [|by apply sderef_Ret].
    erewrite bind_Ret; [|reflexivity].
    erewrite bind_Ret;
      [|apply DCHECK_implied; intros _; apply bool_decide_eq_true_2;
        unfold w0; simpl; congruence].
    erewrite bind_Ret;
      [|apply DCHECK_implied; intros _; by apply bool_decide_eq_true_2].
    change (dispatch_cntx_ sc0) with (dispatch_cntx_ sc). rewrite Hd.
    erewrite bind_Ret; [|by apply deref_Ret].
    destruct (is_terminating_ xd); simpl; [done|].
    unfold w0, mbind, M_bind. by destruct (SwitchTo dc d _). }
  (* the last check, on the worker count *)
  assert (∀ w', scheds w' !! s
                  = Some (if is_terminating_ xd then sc0
                          else set_terminate_queue_ [] sc0) →
            (sc' ← sderef s;
             DCHECK dc (bool_decide (num_worker_fibers_ sc' = 0%Z))) w'
            = if dc && negb (bool_decide (num_worker_fibers_ sc = 0%Z))
              then Fatal else Ret tt w') as Hcount.
  { intros w' Hs'. erewrite bind_Ret; [|by apply sderef_Ret].
    assert (num_worker_fibers_
              (if is_terminating_ xd then sc0 else set_terminate_queue_ [] sc0)
            = num_worker_fibers_ sc) as -> by (by destruct (is_terminating_ xd)).
    unfold DCHECK, CHECK. destruct dc; [|done].
    by destruct (bool_decide (num_worker_fibers_ sc = 0%Z)). }
  destruct (is_terminating_ xd) eqn:Hit.
  - (* the dispatcher has already run to its end *)
    exists w0.
    assert (Scheduler_dtor_handshake dc s w = Ret tt w0) as HH.
    { unfold Scheduler_dtor_handshake. by rewrite Henter. }
    split_and!; try done.
    + destruct Hl as (Hrun & _). simpl. congruence.
    + unfold w0. simpl. by rewrite Hxd, <- Hit.
    + unfold Scheduler_dtor_shutdown. erewrite bind_Ret; [|exact HH].
      by apply Hcount.
  - (* the dispatcher is entered and runs its body *)
    destruct (Hcase eq_refl) as (Hnd & Hall & Hdq & Hmq).
    assert (d ≠ active w0) as Hda by (unfold w0; simpl; congruence).
    destruct (SwitchTo_lockstep_aux dc w0 d xd Hl0 Hxd
                (lockstep_resumable w0 _ _ Hl0 Hxd Hda))
      as (w1 & xp & HS & Ha1 & Hr1 & Hxp & Hf1 & Hs1 & Hsd1 & _ & Hl1).
    assert (scheds w1 !! s = Some sc0) as Hsc1 by (by rewrite Hs1).
    assert (sched w1 = s) as Hsd1' by (rewrite Hsd1; exact Hsd).
    assert (∀ g, wait_queue_ <$> fibers w1 !! g = wait_queue_ <$> fibers w !! g)
      as Hwq.
    { intros g. rewrite Hf1. unfold w0. simpl.
      destruct (decide (g = main_cntx_ sc)) as [->|Hgm].
      - rewrite Hact, lookup_insert_eq.
        unfold w0 in Hxp. simpl in Hxp. rewrite Hact in Hxp.
        by rewrite Hxp.
      - rewrite lookup_insert_ne by congruence.
        destruct (decide (g = d)) as [->|Hgd].
        + by rewrite lookup_insert_eq, Hxd.
        + by rewrite lookup_insert_ne. }
    assert (Forall (pending_ok dc s w1) (terminate_queue_ sc0)) as Hall1.
    { eapply Forall_impl; [exact Hall|]. intros f. apply pending_ok_ext; [done|].
      intros s'. rewrite Hs1. unfold w0. simpl.
      destruct (decide (s' = s)) as [->|Hne].
      - by rewrite lookup_insert_eq, Hsc.
      - by rewrite lookup_insert_ne. }
    destruct (DefaultDispatch_total dc s w1 sc0 Hsc1 (λ _, Hrq) Hnd Hall1)
      as [w2 HD].
    destruct (DefaultDispatch_Ret_frame dc s w1 sc0 tt w2 Hsc1 Hnd HD)
      as (Hout & Hs2 & Ha2 & Hr2 & Hsd2).
    assert (fibers w2 !! d = Some (set_entry_ None xd)) as Hxd2.
    { rewrite Hout by done. rewrite Hf1.
      rewrite lookup_insert_ne by (unfold w0; simpl; congruence).
      apply lookup_insert_eq. }
    assert (lockstep w2) as Hl2.
    { apply lockstep_switch_inv. split.
      - apply (ksi_DefaultDispatch _ _ _ _ _ HD).
        by apply lockstep_switch_inv in Hl1 as [? _].
      - rewrite Ha2, Ha1. eauto. }
    assert (scheds w2 !! sched w2 = Some (set_terminate_queue_ [] sc0)) as Hsc2.
    { rewrite Hsd2, Hsd1', Hs2. apply lookup_insert_eq. }
    assert (is_Some (fibers w2 !! main_cntx_ sc)) as [xm Hxm].
    { rewrite Hout by done. rewrite Hf1. unfold w0. simpl.
      rewrite Hact, lookup_insert_eq. eauto. }
    assert (DefaultDispatch dc (sched w1) w1 = Ret tt w2) as HD'
      by (by rewrite Hsd1').
    destruct (Run_None_total dc None d w1 w2 (set_terminate_queue_ [] sc0)
                (set_entry_ None xd) xm HD' Hl2 Hxd2 Hsc2 Hxm)
      as (w3 & HR & Ha3 & Hr3 & Hit3 & Hs3 & Hl3).
    { simpl. rewrite Ha2, Ha1. congruence. }
    simpl in Ha3, Hr3.
    assert (scheds w3 !! s = Some (set_terminate_queue_ [] sc0)) as Hsc3.
    { rewrite Hs3. by rewrite Hsd2, Hsd1' in Hsc2. }
    destruct (fibers w3 !! d) as [xd3|] eqn:Hxd3; [|done].
    simpl in Hit3. injection Hit3 as Hit3.
    assert (Scheduler_dtor_handshake dc s w = Ret tt w3) as HH.
    { unfold Scheduler_dtor_handshake. rewrite Henter.
      erewrite bind_Ret; [|exact HS].
      erewrite bind_Ret; [|reflexivity]. rewrite Ha1.
      erewrite bind_Ret; [|exact HR].
      unfold Scheduler_dtor_resumed.
      erewrite bind_Ret; [|reflexivity].
      erewrite bind_Ret; [|by apply sderef_Ret].
      change (dispatch_cntx_ (set_terminate_queue_ [] sc0))
        with (dispatch_cntx_ sc). rewrite Hd.
      erewrite bind_Ret; [|by apply deref_Ret].
      by rewrite Hit3. }
    exists w3. split_and!; try done.
    + by rewrite Hxd3, <- Hit3.
    + unfold Scheduler_dtor_shutdown. erewrite bind_Ret; [|exact HH].
      by apply Hcount.
Qed.

Lemma Scheduler_dtor_handshake_spec_witness :
  ∃ wb w',
    FiberInitializer_ctor true 16 (replicate 16 xff) (replicate 16 xff) 7 0 8
      (mkWorld ∅ ∅ 0 0 7) = Ret tt wb ∧
    lockstep wb ∧
    Scheduler_dtor_shutdown true 0 wb = Ret tt w' ∧
    active w' = 7 ∧ lockstep w' ∧
    is_terminating_ <$> fibers w' !! 8 = Some true ∧
    shutdown_ <$> scheds w' !! 0 = Some true.
Proof.
  set (wb := mkWorld
               (<[8 := set_use_count_ 1
                         (DispatcherImpl_ctor 16 (replicate 16 xff) 8 0)]>
                  (<[7 := set_scheduler_ (Some 0)
                            (MainFiberImpl_ctor 16 (replicate 16 xff))]> ∅))
               (<[0 := mkScheduler 7 (Some 8) [] [] [] 0 false]> ∅) 7 0 7).
  assert (lockstep wb) as Hl by compute_done.
  destruct (Scheduler_dtor_handshake_spec true 0 wb
              (mkScheduler 7 (Some 8) [] [] [] 0 false) 8
              (set_use_count_ 1 (DispatcherImpl_ctor 16 (replicate 16 xff) 8 0))
              Hl eq_refl eq_refl eq_refl eq_refl eq_refl)
    as (w' & HH & Ha & Hr & Hl' & Hit & Hs & Hshut).
  - simpl. lia.
  - reflexivity.
  - intros _. split_and!; [constructor|constructor|compute_done|compute_done].
  - exists wb, w'. split; [apply FiberInitializer_ctor_Ret|].
    split; [exact Hl|]. split; [exact Hshut|].
    split_and!; try done. by rewrite Hs.
Defined.

(** ** Joiners resumed by a termination *)



(** ** When [Join] aborts *)










